(** * LSB steganography codec of ss-steganography (src/steganography.py)

    A shallow embedding of [AdvancedSteganography]: the frame
    (marker, length, payload), the least-significant-bit embedding and
    extraction, the password-derived pixel order, [encode], [_decode_image]
    and [decode], together with the library functions they call
    (UTF-8, base64, [struct], SHA-256, the [random] module); the default
    output path of [encode] with [os.path.splitext]; and, from the window
    of the application (src/ss_steganography.py), the handler of the
    action button and [_operation_complete].

    Conventions.  A Python [int] is a [Z]; lengths and indices are [nat];
    [bytes] and [bytearray] are lists of [Z] in [0, 255]; a [str] is the
    list of its code points; the numpy array of shape (height, width, 3)
    is a list of rows of pixels.  An exception is a value of [exn]; the
    global generator of the [random] module is threaded through every
    call that can touch it. *)

From Stdlib Require Import ZArith List Lia Bool.
From stdpp Require Import base tactics option numbers list.

Local Open Scope Z_scope.

(** ** Python data *)

Abbreviation str := (list Z).
Abbreviation bytes := (list Z).

(** Truth value of an optional string: [None] and [""] are falsy. *)
Definition truthy (s : option str) : bool :=
  match s with
  | Some (_ :: _) => true
  | _ => false
  end.

(** Exceptions raised by the modelled code. [ValueError] is the one raised
    by the capacity check of [encode]; its message carries the two bit
    counts. *)
Inductive exn : Type :=
  | UnicodeEncodeError
  | StructError
  | IndexError
  | ValueError (required_bits available_bits : nat).

Inductive result (A : Type) : Type :=
  | Ok (a : A)
  | Raise (e : exn).
Arguments Ok {A} a.
Arguments Raise {A} e.

(** ** Text codecs *)

Module Utf8.

(** [str.encode()] for one code point.  Lone surrogates and values
    outside the code space have no encoding. *)
Definition encode_char (c : Z) : option bytes :=
  if c <? 0 then None
  else if c <? 0x80 then Some [c]
  else if c <? 0x800 then
    Some [Z.lor 0xC0 (Z.shiftr c 6); Z.lor 0x80 (Z.land c 0x3F)]
  else if (0xD800 <=? c) && (c <=? 0xDFFF) then None
  else if c <? 0x10000 then
    Some [Z.lor 0xE0 (Z.shiftr c 12);
          Z.lor 0x80 (Z.land (Z.shiftr c 6) 0x3F);
          Z.lor 0x80 (Z.land c 0x3F)]
  else if c <? 0x110000 then
    Some [Z.lor 0xF0 (Z.shiftr c 18);
          Z.lor 0x80 (Z.land (Z.shiftr c 12) 0x3F);
          Z.lor 0x80 (Z.land (Z.shiftr c 6) 0x3F);
          Z.lor 0x80 (Z.land c 0x3F)]
  else None.

Fixpoint encode (s : str) : option bytes :=
  match s with
  | [] => Some []
  | c :: s' =>
      match encode_char c, encode s' with
      | Some cs, Some bs => Some (cs ++ bs)
      | _, _ => None
      end
  end.

Definition is_cont (b : Z) : bool := (0x80 <=? b) && (b <=? 0xBF).

Definition join2 (b0 b1 : Z) : Z :=
  Z.lor (Z.shiftl (Z.land b0 0x1F) 6) (Z.land b1 0x3F).
Definition join3 (b0 b1 b2 : Z) : Z :=
  Z.lor (Z.shiftl (Z.land b0 0x0F) 12)
        (Z.lor (Z.shiftl (Z.land b1 0x3F) 6) (Z.land b2 0x3F)).
Definition join4 (b0 b1 b2 b3 : Z) : Z :=
  Z.lor (Z.shiftl (Z.land b0 0x07) 18)
        (Z.lor (Z.shiftl (Z.land b1 0x3F) 12)
               (Z.lor (Z.shiftl (Z.land b2 0x3F) 6) (Z.land b3 0x3F))).

(** [bytes.decode('utf-8')], strict: overlong forms, surrogates, values
    above U+10FFFF and truncated sequences are rejected ([None] stands
    for [UnicodeDecodeError]). *)
Fixpoint decode (bs : bytes) : option str :=
  match bs with
  | [] => Some []
  | b0 :: t0 =>
      if (0 <=? b0) && (b0 <? 0x80) then cons b0 <$> decode t0
      else if (0xC2 <=? b0) && (b0 <=? 0xDF) then
        match t0 with
        | b1 :: t1 =>
            if is_cont b1 then cons (join2 b0 b1) <$> decode t1 else None
        | _ => None
        end
      else if (0xE0 <=? b0) && (b0 <=? 0xEF) then
        match t0 with
        | b1 :: b2 :: t2 =>
            let c := join3 b0 b1 b2 in
            if is_cont b1 && is_cont b2 && (0x800 <=? c)
               && negb ((0xD800 <=? c) && (c <=? 0xDFFF))
            then cons c <$> decode t2 else None
        | _ => None
        end
      else if (0xF0 <=? b0) && (b0 <=? 0xF4) then
        match t0 with
        | b1 :: b2 :: b3 :: t3 =>
            let c := join4 b0 b1 b2 b3 in
            if is_cont b1 && is_cont b2 && is_cont b3
               && (0x10000 <=? c) && (c <=? 0x10FFFF)
            then cons c <$> decode t3 else None
        | _ => None
        end
      else None
  end.

(** The bytes of an encoded code point, as arithmetic. *)
Definition cont (d : Z) : Z := 0x80 + d mod 64.

End Utf8.

Module Base64.

Definition alphabet (i : Z) : Z :=
  if i <? 26 then 65 + i
  else if i <? 52 then 97 + (i - 26)
  else if i <? 62 then 48 + (i - 52)
  else if i =? 62 then 43
  else 47.

(** [base64.b64encode(data).decode('ascii')]: the result as code points. *)
Fixpoint b64encode (bs : bytes) : str :=
  match bs with
  | [] => []
  | [a] =>
      [alphabet (Z.shiftr a 2); alphabet (Z.shiftl (Z.land a 3) 4); 61; 61]
  | [a; b] =>
      [alphabet (Z.shiftr a 2);
       alphabet (Z.lor (Z.shiftl (Z.land a 3) 4) (Z.shiftr b 4));
       alphabet (Z.shiftl (Z.land b 15) 2); 61]
  | a :: b :: c :: t =>
      alphabet (Z.shiftr a 2)
      :: alphabet (Z.lor (Z.shiftl (Z.land a 3) 4) (Z.shiftr b 4))
      :: alphabet (Z.lor (Z.shiftl (Z.land b 15) 2) (Z.shiftr c 6))
      :: alphabet (Z.land c 63)
      :: b64encode t
  end.

End Base64.

(** ** [struct] *)

(** [struct.pack("<I", n)]: four bytes, least significant first;
    [struct.error] when [n] does not fit 32 bits. *)
Definition struct_pack_I (n : nat) : option bytes :=
  let z := Z.of_nat n in
  if z <? 2 ^ 32 then
    Some [Z.land z 0xFF; Z.land (Z.shiftr z 8) 0xFF;
          Z.land (Z.shiftr z 16) 0xFF; Z.land (Z.shiftr z 24) 0xFF]
  else None.

(** [struct.unpack("<I", b)[0]]: [struct.error] unless [b] has four bytes. *)
Definition struct_unpack_I (b : bytes) : option Z :=
  match b with
  | [b0; b1; b2; b3] =>
      Some (Z.lor b0 (Z.lor (Z.shiftl b1 8)
                            (Z.lor (Z.shiftl b2 16) (Z.shiftl b3 24))))
  | _ => None
  end.

(** [int.from_bytes(b, 'big')]. *)
Definition int_from_bytes_big (b : bytes) : Z :=
  fold_left (fun acc x => Z.lor (Z.shiftl acc 8) x) b 0.

(** ** [hashlib.sha256] *)

Module Sha256.

Definition mask32 : Z := 0xFFFFFFFF.
Definition add32 (a b : Z) : Z := Z.land (a + b) mask32.
Definition rotr (x n : Z) : Z :=
  Z.lor (Z.shiftr x n) (Z.land (Z.shiftl x (32 - n)) mask32).
Definition not32 (x : Z) : Z := Z.lxor x mask32.

Definition K : list Z :=
  [0x428A2F98; 0x71374491; 0xB5C0FBCF; 0xE9B5DBA5;
   0x3956C25B; 0x59F111F1; 0x923F82A4; 0xAB1C5ED5;
   0xD807AA98; 0x12835B01; 0x243185BE; 0x550C7DC3;
   0x72BE5D74; 0x80DEB1FE; 0x9BDC06A7; 0xC19BF174;
   0xE49B69C1; 0xEFBE4786; 0x0FC19DC6; 0x240CA1CC;
   0x2DE92C6F; 0x4A7484AA; 0x5CB0A9DC; 0x76F988DA;
   0x983E5152; 0xA831C66D; 0xB00327C8; 0xBF597FC7;
   0xC6E00BF3; 0xD5A79147; 0x06CA6351; 0x14292967;
   0x27B70A85; 0x2E1B2138; 0x4D2C6DFC; 0x53380D13;
   0x650A7354; 0x766A0ABB; 0x81C2C92E; 0x92722C85;
   0xA2BFE8A1; 0xA81A664B; 0xC24B8B70; 0xC76C51A3;
   0xD192E819; 0xD6990624; 0xF40E3585; 0x106AA070;
   0x19A4C116; 0x1E376C08; 0x2748774C; 0x34B0BCB5;
   0x391C0CB3; 0x4ED8AA4A; 0x5B9CCA4F; 0x682E6FF3;
   0x748F82EE; 0x78A5636F; 0x84C87814; 0x8CC70208;
   0x90BEFFFA; 0xA4506CEB; 0xBEF9A3F7; 0xC67178F2].

Definition H0 : list Z :=
  [0x6A09E667; 0xBB67AE85; 0x3C6EF372; 0xA54FF53A;
   0x510E527F; 0x9B05688C; 0x1F83D9AB; 0x5BE0CD19].

Definition word_bytes (w : Z) : bytes :=
  [Z.land (Z.shiftr w 24) 0xFF; Z.land (Z.shiftr w 16) 0xFF;
   Z.land (Z.shiftr w 8) 0xFF; Z.land w 0xFF].

(** Message, a one bit, zeros up to 56 modulo 64, the bit length on
    eight bytes. *)
Definition pad (m : bytes) : bytes :=
  let len := Z.of_nat (length m) in
  m ++ [0x80] ++ repeat 0 (Z.to_nat ((55 - len) mod 64))
    ++ word_bytes (Z.shiftr (8 * len) 32) ++ word_bytes (Z.land (8 * len) mask32).

Fixpoint words (n : nat) (b : bytes) : list Z :=
  match n with
  | O => []
  | S n' => int_from_bytes_big (firstn 4 b) :: words n' (skipn 4 b)
  end.

Definition ssig0 (x : Z) := Z.lxor (rotr x 7) (Z.lxor (rotr x 18) (Z.shiftr x 3)).
Definition ssig1 (x : Z) := Z.lxor (rotr x 17) (Z.lxor (rotr x 19) (Z.shiftr x 10)).
Definition bsig0 (x : Z) := Z.lxor (rotr x 2) (Z.lxor (rotr x 13) (rotr x 22)).
Definition bsig1 (x : Z) := Z.lxor (rotr x 6) (Z.lxor (rotr x 11) (rotr x 25)).
Definition ch (x y z : Z) := Z.lxor (Z.land x y) (Z.land (not32 x) z).
Definition maj (x y z : Z) :=
  Z.lxor (Z.land x y) (Z.lxor (Z.land x z) (Z.land y z)).

Fixpoint schedule (n : nat) (w : list Z) : list Z :=
  match n with
  | O => w
  | S n' =>
      let t := length w in
      let at_ k := nth (t - k) w 0 in
      schedule n' (w ++ [add32 (add32 (ssig1 (at_ 2%nat)) (at_ 7%nat))
                               (add32 (ssig0 (at_ 15%nat)) (at_ 16%nat))])
  end.

Definition round (s : list Z) (kw : Z * Z) : list Z :=
  match s with
  | [a; b; c; d; e; f; g; h] =>
      let t1 := add32 (add32 (add32 h (bsig1 e)) (add32 (ch e f g) (fst kw))) (snd kw) in
      let t2 := add32 (bsig0 a) (maj a b c) in
      [add32 t1 t2; a; b; c; add32 d t1; e; f; g]
  | _ => s
  end.

Definition compress (h : list Z) (block : bytes) : list Z :=
  let w := schedule 48 (words 16 block) in
  map (fun p => add32 (fst p) (snd p))
      (combine h (fold_left round (combine K w) h)).

Fixpoint blocks (n : nat) (b : bytes) (h : list Z) : list Z :=
  match n with
  | O => h
  | S n' => blocks n' (skipn 64 b) (compress h (firstn 64 b))
  end.

(** [hashlib.sha256(m).digest()] *)
Definition digest (m : bytes) : bytes :=
  let p := pad m in
  flat_map word_bytes (blocks (length p / 64) p H0).

End Sha256.

(** ** The [random] module

    The codec uses two calls: [random.seed(n)], which replaces the state of
    the module's global generator, and [random.shuffle(x)], which draws
    from it through [_randbelow].  [randbelow g n] returns an integer
    below [n] and the next state. *)

Class Random : Type := {
  rng : Type;
  random_seed : Z -> rng;
  randbelow : rng -> nat -> nat * rng;
  randbelow_lt : forall g n, (0 < n)%nat -> (fst (randbelow g n) < n)%nat
}.

(** CPython's generator: MT19937, seeded by [init_by_array] from the 32-bit
    limbs of the seed. *)
Module MT19937.

Definition mask32 : Z := 0xFFFFFFFF.
Definition N : nat := 624.
Definition M : nat := 397.
Definition MATRIX_A : Z := 0x9908b0df.
Definition UPPER_MASK : Z := 0x80000000.
Definition LOWER_MASK : Z := 0x7fffffff.

Record state : Type := { mt : list Z; mti : nat }.

Definition get (v : list Z) (i : nat) : Z := nth i v 0.

Fixpoint init_genrand_loop (n : nat) (i prev : Z) : list Z :=
  match n with
  | O => []
  | S n' =>
      let x := Z.land (1812433253 * Z.lxor prev (Z.shiftr prev 30) + i) mask32 in
      x :: init_genrand_loop n' (i + 1) x
  end.

Definition init_genrand (s : Z) : list Z :=
  let s0 := Z.land s mask32 in
  s0 :: init_genrand_loop (N - 1) 1 s0.

Definition wrap (v : list Z) (i : nat) : list Z * nat :=
  if (N <=? i)%nat then (<[0%nat := get v (N - 1)]> v, 1%nat) else (v, i).

Fixpoint key_loop (k : nat) (key : list Z) (v : list Z) (i j : nat) : list Z * nat :=
  match k with
  | O => (v, i)
  | S k' =>
      let p := get v (i - 1) in
      let x := Z.land (Z.lxor (get v i) (Z.lxor p (Z.shiftr p 30) * 1664525)
                       + get key j + Z.of_nat j) mask32 in
      let (v', i') := wrap (<[i := x]> v) (S i) in
      let j' := if (length key <=? S j)%nat then 0%nat else S j in
      key_loop k' key v' i' j'
  end.

Fixpoint mix_loop (k : nat) (v : list Z) (i : nat) : list Z :=
  match k with
  | O => v
  | S k' =>
      let p := get v (i - 1) in
      let x := Z.land (Z.lxor (get v i) (Z.lxor p (Z.shiftr p 30) * 1566083941)
                       - Z.of_nat i) mask32 in
      let (v', i') := wrap (<[i := x]> v) (S i) in
      mix_loop k' v' i'
  end.

Definition init_by_array (key : list Z) : state :=
  let (v, i) := key_loop (Nat.max N (length key)) key (init_genrand 19650218) 1 0 in
  {| mt := <[0%nat := 0x80000000]> (mix_loop (N - 1) v i); mti := N |}.

(** The 32-bit limbs of a non-negative seed, least significant first. *)
Fixpoint limbs (n : nat) (a : Z) : list Z :=
  match n with
  | O => []
  | S n' => Z.land a mask32 :: limbs n' (Z.shiftr a 32)
  end.

Definition seed (a : Z) : state :=
  let a := Z.abs a in
  init_by_array (limbs (Z.to_nat (Z.log2 a / 32 + 1)) a).

Fixpoint twist (k : nat) (kk : nat) (v : list Z) : list Z :=
  match k with
  | O => v
  | S k' =>
      let y := Z.lor (Z.land (get v kk) UPPER_MASK)
                     (Z.land (get v ((kk + 1) mod N)) LOWER_MASK) in
      let x := Z.lxor (get v ((kk + M) mod N))
                      (Z.lxor (Z.shiftr y 1)
                              (if Z.land y 1 =? 0 then 0 else MATRIX_A)) in
      twist k' (S kk) (<[kk := x]> v)
  end.

Definition temper (y : Z) : Z :=
  let y := Z.lxor y (Z.shiftr y 11) in
  let y := Z.lxor y (Z.land (Z.shiftl y 7) 0x9d2c5680) in
  let y := Z.lxor y (Z.land (Z.shiftl y 15) 0xefc60000) in
  Z.lxor y (Z.shiftr y 18).

Definition genrand_uint32 (g : state) : Z * state :=
  let g := if (N <=? mti g)%nat then {| mt := twist N 0 (mt g); mti := 0 |} else g in
  (temper (get (mt g) (mti g)), {| mt := mt g; mti := S (mti g) |}).

Fixpoint getrandbits_words (n : nat) (k shift : Z) (acc : Z) (g : state) : Z * state :=
  match n with
  | O => (acc, g)
  | S n' =>
      let (r, g') := genrand_uint32 g in
      let r := if k <? 32 then Z.shiftr r (32 - k) else r in
      getrandbits_words n' (k - 32) (shift + 32) (Z.lor acc (Z.shiftl r shift)) g'
  end.

(** [getrandbits(k)] for [k > 0]. *)
Definition getrandbits (k : Z) (g : state) : Z * state :=
  if k <=? 32 then
    let (r, g') := genrand_uint32 g in (Z.shiftr r (32 - k), g')
  else getrandbits_words (Z.to_nat ((k - 1) / 32 + 1)) k 0 0 g.

(** [_randbelow_with_getrandbits]: draw [n.bit_length()] bits until the
    value falls below [n].  A draw fails with probability below one half;
    CPython redraws without bound, here the loop stops after
    [max_redraws] failures with 0. *)
Definition max_redraws : nat := 4096.

Fixpoint redraw (fuel : nat) (n k : Z) (g : state) : Z * state :=
  let (r, g') := getrandbits k g in
  if r <? n then (r, g')
  else match fuel with
       | O => (0, g')
       | S fuel' => redraw fuel' n k g'
       end.

Definition randbelow (g : state) (n : nat) : nat * state :=
  let z := Z.of_nat n in
  let (r, g') := redraw max_redraws z (Z.log2 z + 1) g in
  (Z.to_nat r, g').

End MT19937.

Lemma MT19937_redraw_lt fuel n k g :
  0 < n -> fst (MT19937.redraw fuel n k g) < n.
Proof.
  intros Hn. revert g. induction fuel as [|fuel IH]; intros g; simpl;
    destruct (MT19937.getrandbits k g) as [r g'];
    destruct (r <? n) eqn:Hr; simpl; auto; apply Z.ltb_lt in Hr; lia.
Qed.

#[export] Program Instance MT19937_Random : Random := {|
  rng := MT19937.state;
  random_seed := MT19937.seed;
  randbelow := MT19937.randbelow
|}.
Next Obligation.
  intros g n Hn. unfold MT19937.randbelow.
  pose proof (MT19937_redraw_lt MT19937.max_redraws (Z.of_nat n)
                (Z.log2 (Z.of_nat n) + 1) g) as Hlt.
  destruct (MT19937.redraw _ _ _ g) as [r g']. simpl in *. lia.
Qed.

(** ** The numpy array of an RGB image *)

Abbreviation pixel := (Z * Z * Z)%type.
Abbreviation ndarray := (list (list pixel)).
Abbreviation coord := (nat * nat)%type.

(** [height, width, _ = a.shape] *)
Definition height (a : ndarray) : nat := length a.
Definition width (a : ndarray) : nat :=
  match a with
  | [] => 0%nat
  | row :: _ => length row
  end.

(** [a[y, x]] and [a[y, x] = p]; [None] stands for [IndexError]. *)
Definition getitem (a : ndarray) (y x : nat) : option pixel :=
  match a !! y with
  | Some row => row !! x
  | None => None
  end.

Definition setitem (a : ndarray) (y x : nat) (p : pixel) : option ndarray :=
  match a !! y with
  | Some row =>
      if decide (x < length row)%nat then Some (<[y := <[x := p]> row]> a)
      else None
  | None => None
  end.

(** ** [AdvancedSteganography] *)

Section Codec.

Context {R : Random}.

(** Computations that may raise and that read and write the state of the
    global generator. *)
Definition M (A : Type) : Type := rng -> result A * rng.

Definition ret {A} (a : A) : M A := fun g => (Ok a, g).
Definition raise {A} (e : exn) : M A := fun g => (Raise e, g).
Definition bind {A B} (m : M A) (k : A -> M B) : M B :=
  fun g =>
    match m g with
    | (Ok a, g') => k a g'
    | (Raise e, g') => (Raise e, g')
    end.
Definition lift_option {A} (e : exn) (o : option A) : M A :=
  match o with
  | Some a => ret a
  | None => raise e
  end.
Definition lift_result {A} (r : result A) : M A := fun g => (r, g).

(** [try: ... except Exception: return None] *)
Definition try_except {A} (m : M (option A)) : M (option A) :=
  fun g =>
    match m g with
    | (Ok r, g') => (Ok r, g')
    | (Raise _, g') => (Ok None, g')
    end.

Notation "'do' x <- m ; k" := (bind m (fun x => k))
  (at level 10, x binder, m at level 100, k at level 200).

(** *** The [random] calls *)

(** [random.seed(a)] *)
Definition seed (a : Z) : M unit := fun _ => (Ok tt, random_seed a).

(** [x[i], x[j] = x[j], x[i]]; [None] stands for [IndexError]. *)
Definition swap (x : list nat) (i j : nat) : option (list nat) :=
  match x !! i, x !! j with
  | Some a, Some b => Some (<[j := a]> (<[i := b]> x))
  | _, _ => None
  end.

(** [for i in reversed(range(1, len(x))): j = randbelow(i + 1); swap] *)
Fixpoint shuffle_loop (i : nat) (x : list nat) (g : rng)
  : result (list nat) * rng :=
  match i with
  | O => (Ok x, g)
  | S i' =>
      let (j, g') := randbelow g (i + 1) in
      match swap x i j with
      | Some x' => shuffle_loop i' x' g'
      | None => (Raise IndexError, g')
      end
  end.

(** [random.shuffle(x)] *)
Definition shuffle (x : list nat) : M (list nat) :=
  shuffle_loop (length x - 1) x.

(** *** Bits *)

(** Line 21: [b'SSSTEGO']. *)
Definition marker : bytes := [83; 83; 83; 84; 69; 71; 79].
Definition marker_size : nat := length marker.
Definition header_size : nat := marker_size + 4.

(** Lines 29-36. *)
Definition _embed_bit (value bit : Z) : Z :=
  let value := Z.max 0 (Z.min 255 value) in
  let bit := Z.land bit 1 in
  Z.lor (Z.land value 0xFE) bit.

(** Lines 38-41. *)
Definition _extract_bit (value : Z) : Z := Z.land value 1.

(** Lines 101-104: eight bits for each byte, bit 0 first. *)
Definition byte_bits (b : Z) : list Z :=
  map (fun i => Z.land (Z.shiftr b (Z.of_nat i)) 1) (seq 0 8).

Definition message_bits (message_bytes : bytes) : list Z :=
  flat_map byte_bits message_bytes.

(** Lines 241-245: the byte whose bit [j] is set when [bits[i + j]] is
    truthy. *)
Definition assemble_byte (bits : list Z) (i : nat) : Z :=
  fold_left
    (fun byte j =>
       if default 0 (bits !! (i + j)%nat) =? 0 then byte
       else Z.lor byte (Z.shiftl 1 (Z.of_nat j)))
    (seq 0 8) 0.

(** Lines 238-245 and 281-288: [for i in range(0, n * 8, 8)], a byte is
    appended when eight bits are there. *)
Definition bits_to_bytes (n : nat) (bits : list Z) : bytes :=
  flat_map
    (fun k =>
       if decide (8 * k + 8 <= length bits)%nat
       then [assemble_byte bits (8 * k)] else [])
    (seq 0 n).

(** *** Pixel order (lines 83-95 and 205-215, the same text twice) *)

Definition pixel_order (width height : nat) (password : option str)
  : M (list coord) :=
  if truthy password then
    do b <- lift_option UnicodeEncodeError (Utf8.encode (default [] password)) ;
    let s := int_from_bytes_big (take 4 (Sha256.digest b)) in
    do _ <- seed s ;
    do pixels <- shuffle (seq 0 (width * height)) ;
    ret (map (fun i => (i mod width, i / width)%nat) pixels)
  else
    ret (flat_map (fun y => map (fun x => (x, y)) (seq 0 width)) (seq 0 height)).

(** *** [encode] *)

(** One channel: lines 116-126. *)
Definition embed_channel (bits : list Z) (v : Z) (bit_index : nat) : Z * nat :=
  match bits !! bit_index with
  | Some bit => (_embed_bit v bit, S bit_index)
  | None => (v, bit_index)
  end.

(** Lines 107-129. *)
Fixpoint embed_loop (pixel_coords : list coord) (bits : list Z)
    (bit_index : nat) (stego_array : ndarray) : result ndarray :=
  match pixel_coords with
  | [] => Ok stego_array
  | (x, y) :: rest =>
      if (length bits <=? bit_index)%nat then Ok stego_array
      else
        match getitem stego_array y x with
        | None => Raise IndexError
        | Some (r, g, b) =>
            let '(r, bit_index) := embed_channel bits r bit_index in
            let '(g, bit_index) := embed_channel bits g bit_index in
            let '(b, bit_index) := embed_channel bits b bit_index in
            match setitem stego_array y x (r, g, b) with
            | None => Raise IndexError
            | Some stego_array => embed_loop rest bits bit_index stego_array
            end
        end
  end.

(** Line 70. *)
Definition frame (message_data : bytes) : option bytes :=
  match struct_pack_I (length message_data) with
  | Some l => Some (marker ++ l ++ message_data)
  | None => None
  end.

(** Lines 63-129: from the array of the carrier to the array of the
    stego image. *)
Definition encode (img_array : ndarray) (message : str)
    (password : option str) : M ndarray :=
  let height := height img_array in
  let width := width img_array in
  do message_data <- lift_option UnicodeEncodeError (Utf8.encode message) ;
  do message_bytes <- lift_option StructError (frame message_data) ;
  let required_bits := (length message_bytes * 8)%nat in
  let available_bits := (width * height * 3)%nat in
  if (available_bits <? required_bits)%nat then
    raise (ValueError required_bits available_bits)
  else
    do pixel_coords <- pixel_order width height password ;
    let stego_array := img_array in
    let bits := message_bits message_bytes in
    lift_result (embed_loop pixel_coords bits 0 stego_array).

(** *** [_decode_image] and [decode] *)

(** Lines 224-231 and 267-274. *)
Fixpoint extract_loop (pixel_coords : list coord) (needed_bits : nat)
    (img_array : ndarray) (extracted_bits : list Z) : result (list Z) :=
  match pixel_coords with
  | [] => Ok extracted_bits
  | (x, y) :: rest =>
      if (needed_bits <=? length extracted_bits)%nat then Ok extracted_bits
      else
        match getitem img_array y x with
        | None => Raise IndexError
        | Some (r, g, b) =>
            extract_loop rest needed_bits img_array
              (extracted_bits ++ [_extract_bit r; _extract_bit g; _extract_bit b])
        end
  end.

(** [message_data.decode('utf-8')], base64 text when that fails. *)
Definition payload_text (message_data : bytes) : str :=
  match Utf8.decode message_data with
  | Some s => s
  | None => Base64.b64encode message_data
  end.

(** Lines 217-307, the body of the [try]. *)
Definition decode_body (img_array : ndarray) (width height : nat)
    (password : option str) : M (option str) :=
  do pixel_coords <- pixel_order width height password ;
  let needed_bits := (header_size * 8)%nat in
  do extracted_bits <- lift_result (extract_loop pixel_coords needed_bits img_array []) ;
  let header_bytes := bits_to_bytes header_size extracted_bits in
  if (marker_size <=? length header_bytes)%nat
     && bool_decide (take marker_size header_bytes = marker) then
    do message_length <-
      lift_option StructError
        (struct_unpack_I (take 4 (drop marker_size header_bytes))) ;
    if (message_length <=? 0) || (Z.of_nat (width * height) <? message_length)
    then ret None
    else
      let message_length := Z.to_nat message_length in
      let total_bytes_needed := (header_size + message_length)%nat in
      let total_bits_needed := (total_bytes_needed * 8)%nat in
      do extracted_bits <-
        (if (length extracted_bits <? total_bits_needed)%nat then
           let start_idx := (length extracted_bits / 3)%nat in
           lift_result (extract_loop (drop start_idx pixel_coords)
                          total_bits_needed img_array extracted_bits)
         else ret extracted_bits) ;
      let all_bytes := bits_to_bytes total_bytes_needed extracted_bits in
      if (total_bytes_needed <=? length all_bytes)%nat then
        let message_data := take message_length (drop header_size all_bytes) in
        ret (Some (payload_text message_data))
      else ret None
  else ret None.

Definition _decode_image (img_array : ndarray) (width height : nat)
    (password : option str) : M (option str) :=
  try_except (decode_body img_array width height password).

(** Lines 164-188. *)
Definition decode (img_array : ndarray) (password : option str)
  : M (option str) :=
  let height := height img_array in
  let width := width img_array in
  do result <- _decode_image img_array width height password ;
  if truthy result then ret result
  else if truthy password then
    do result <- _decode_image img_array width height None ;
    if truthy result then ret result else ret None
  else ret None.

End Codec.

(** * Vocabulary of the properties *)

Definition is_byte (b : Z) : Prop := 0 <= b <= 255.

Definition getc (a : ndarray) (c : coord) : option pixel := getitem a (snd c) (fst c).

Definition in_shape (a : ndarray) (c : coord) : Prop :=
  (fst c < width a)%nat /\ (snd c < height a)%nat.

(** Every row has the width of the array. *)
Definition rect (a : ndarray) : Prop :=
  Forall (fun row => length row = width a) a.

Definition uint8_pixel (p : pixel) : Prop :=
  is_byte (fst (fst p)) /\ is_byte (snd (fst p)) /\ is_byte (snd p).

(** The array has dtype [uint8]. *)
Definition uint8 (a : ndarray) : Prop := Forall (Forall uint8_pixel) a.

(** What the loop leaves in a channel that meets bit [i] of the frame. *)
Definition embed_value (bits : list Z) (i : nat) (v : Z) : Z :=
  match bits !! i with
  | Some bit => _embed_bit v bit
  | None => v
  end.

Definition embed_pixel (bits : list Z) (i : nat) (p : pixel) : pixel :=
  let '(r, g, b) := p in
  (embed_value bits i r, embed_value bits (i + 1) g, embed_value bits (i + 2) b).

Definition lsb3 (p : pixel) : list Z :=
  let '(r, g, b) := p in [_extract_bit r; _extract_bit g; _extract_bit b].

(** The least significant bits met along a list of coordinates. *)
Definition lsb_stream (a : ndarray) (cs : list coord) : list Z :=
  flat_map (fun c => from_option lsb3 [] (getc a c)) cs.

(** Line 92 / 212: the coordinate of a linear index. *)
Definition coord_of (width : nat) (i : nat) : coord := (i mod width, i / width)%nat.

(** Line 95 / 215. *)
Definition raster (width height : nat) : list coord :=
  flat_map (fun y => map (fun x => (x, y)) (seq 0 width)) (seq 0 height).

(** A sequence that visits every coordinate of the grid once. *)
Definition grid_order (width height : nat) (cs : list coord) : Prop :=
  length cs = (width * height)%nat /\ NoDup cs /\
  forall x y, (x, y) ∈ cs <-> (x < width)%nat /\ (y < height)%nat.

(** The effect of [encode] on one channel that meets bit [i] of the frame
    bits: the bit is its least significant bit and the seven bits above are
    kept; a channel that meets no bit is kept. *)
Definition channel_effect (bits : list Z) (i : nat) (v v' : Z) : Prop :=
  match bits !! i with
  | Some bit => Z.land v' 1 = bit /\ Z.shiftr v' 1 = Z.shiftr v 1
  | None => v' = v
  end.

(** The text has a UTF-8 encoding (no lone surrogate). *)
Definition encodable (s : str) : Prop := is_Some (Utf8.encode s).

(** Lines 86/207: the seed of a password from its UTF-8 bytes. *)
Definition password_seed (b : bytes) : Z :=
  int_from_bytes_big (take 4 (Sha256.digest b)).

Section Vocabulary.

Context {R : Random}.

(** Lines 87-92: the order of a seed. *)
Definition shuffled_order (width height : nat) (s : Z) : result (list coord) * rng :=
match shuffle (seq 0 (width * height)) (random_seed s) with
| (Ok pixels, g) => (Ok (map (coord_of width) pixels), g)
| (Raise e, g) => (Raise e, g)
end.

(** Lines 204-245: the header bytes an attempt recovers. *)
Definition header_scan (img_array : ndarray) (width height : nat)
  (password : option str) : M bytes :=
bind (pixel_order width height password) (fun pixel_coords =>
bind (lift_result (extract_loop pixel_coords (header_size * 8) img_array []))
  (fun extracted_bits => ret (bits_to_bytes header_size extracted_bits))).

(** The second attempt of [decode]: lines 177-184. *)
Definition second_attempt (img_array : ndarray) (g : rng) : result (option str) * rng :=
let (result, g') :=
  _decode_image img_array (width img_array) (height img_array) None g in
match result with
| Ok r => (Ok (if truthy r then r else None), g')
| Raise e => (Raise e, g')
end.

End Vocabulary.

(** ** Example inputs, on CPython's generator *)

(** The value of a result, [d] when it is an exception. *)
Definition ok_or {A} (d : A) (r : result A) : A :=
  match r with
  | Ok a => a
  | Raise _ => d
  end.

(** A state of the global generator. *)
Definition g0 : @rng MT19937_Random := MT19937.seed 0.

(** An image of 6 by 6 pixels: 108 bits. *)
Definition carrier : ndarray := repeat (repeat (200, 100, 51) 6) 6.

(** An image of 10 by 10 pixels: 300 bits. *)
Definition carrier_10x10 : ndarray := repeat (repeat (200, 100, 51) 10) 10.

(** An image of 8 by 4 pixels holds 96 bits, the frame of a message of one
    byte. *)
Definition carrier_8x4 : ndarray := repeat (repeat (200, 100, 51) 8) 4.

Definition blank_12x12 : ndarray := repeat (repeat (0, 0, 0) 12) 12.

(** A carrier that already holds the message X, hidden with the password r. *)
Definition carrier_r : ndarray :=
  ok_or [] (fst (encode (R := MT19937_Random) blank_12x12 [88] (Some [114]) g0)).

(** * The generator state, the output path and the window *)

(** ** Further vocabulary *)

(** The header of a frame that the checks of lines 248-291 accept in an
    image of [w] by [h] pixels. *)
Definition valid_header (w h : nat) (hb : bytes) : Prop :=
  take 7 hb = marker /\
  exists L, struct_unpack_I (take 4 (drop 7 hb)) = Some L /\
    0 < L <= Z.of_nat (w * h) /\
    (8 * (11 + Z.to_nat L) <= 3 * (w * h))%nat.

(** Every channel of the array has a clear least significant bit. *)
Definition lsb_clear (a : ndarray) : Prop :=
  Forall (Forall (fun p => lsb3 p = [0; 0; 0])) a.

Section GeneratorState.

Context {R : Random}.

(** The state in which a call with [password] leaves the generator of the
    [random] module: reseeded and advanced by the shuffle when the password
    is truthy, untouched otherwise (also when the password cannot be
    encoded, since line 86/207 raises before line 87/208). *)
Definition state_after (width height : nat) (password : option str) (g : rng) : rng :=
  if truthy password then
    match Utf8.encode (default [] password) with
    | Some b => snd (shuffled_order width height (password_seed b))
    | None => g
    end
  else g.

End GeneratorState.

(** ** [str.strip], [str.rfind] and [os.path.splitext] *)

(** The code points for which [str.isspace] holds; [str.strip()] removes
    exactly these. *)
Definition isspace (c : Z) : bool :=
  ((9 <=? c) && (c <=? 13)) || ((28 <=? c) && (c <=? 32)) ||
  (c =? 133) || (c =? 160) || (c =? 5760) ||
  ((8192 <=? c) && (c <=? 8202)) || (c =? 8232) || (c =? 8233) ||
  (c =? 8239) || (c =? 8287) || (c =? 12288).

Fixpoint lstrip (s : str) : str :=
  match s with
  | c :: t => if isspace c then lstrip t else s
  | [] => []
  end.

Definition rstrip (s : str) : str := rev (lstrip (rev s)).

Definition strip (s : str) : str := rstrip (lstrip s).

(** [p.rfind(c)] for a one-character [c]: the last index of [c], -1 when
    there is none. *)
Fixpoint rfind_from (i : Z) (p : str) (c : Z) (found : Z) : Z :=
  match p with
  | [] => found
  | x :: t => rfind_from (i + 1) t c (if x =? c then i else found)
  end.

Definition rfind (p : str) (c : Z) : Z := rfind_from 0 p c (-1).

(** [genericpath._splitext]: the extension starts at the last dot of the
    last component, unless only dots come before it there. *)
Definition _splitext (p : str) (sep : Z) (altsep : option Z) (extsep : Z) : str * str :=
  let sepIndex := rfind p sep in
  let sepIndex :=
    match altsep with
    | Some altsep => Z.max sepIndex (rfind p altsep)
    | None => sepIndex
    end in
  let dotIndex := rfind p extsep in
  if (sepIndex <? dotIndex)
     && existsb (fun filenameIndex => negb (bool_decide (p !! filenameIndex = Some extsep)))
          (seq (Z.to_nat (sepIndex + 1)) (Z.to_nat (dotIndex - (sepIndex + 1))))
  then (take (Z.to_nat dotIndex) p, drop (Z.to_nat dotIndex) p)
  else (p, []).

(** [os.path] is [posixpath] or [ntpath]. *)
Inductive platform : Set := Posix | Nt.

Definition os_path_splitext (os : platform) (p : str) : str * str :=
  match os with
  | Posix => _splitext p 47 None 46
  | Nt => _splitext p 92 (Some 47) 46
  end.

(** Lines 135-137 of [encode]: the path the stego image is saved to. *)
Definition stego_suffix : str := [95; 115; 116; 101; 103; 111; 46; 112; 110; 103].

Definition output_path_of (os : platform) (image_path : str) (output_path : option str) : str :=
  match output_path with
  | None => let '(base, ext) := os_path_splitext os image_path in base ++ stego_suffix
  | Some output_path => output_path
  end.

(** ** The window of the application (src/ss_steganography.py) *)

(** The variables and widgets the handler reads. [message_text] is what
    [self.message_text.get(1.0, tk.END)] returns. *)
Record form : Set := {
  image_path : str;
  use_password : bool;
  password : str;
  operation : str;
  message_text : str
}.

Inductive error_box : Set :=
| SelectValidImage
| EnterPassword
| EnterMessage.

Inductive action : Set :=
| ShowError (e : error_box)
| StartEncode (image_path message : str) (password : option str)
| StartDecode (image_path : str) (password : option str).

Definition op_encode : str := [101; 110; 99; 111; 100; 101].

Definition nonempty (s : str) : bool := match s with [] => false | _ => true end.

Section Window.

(** [os.path.isfile], a fact of the file system. *)
Variable isfile : str -> bool.

Definition _process_action (f : form) : action :=
  let image_path := image_path f in
  if negb (nonempty image_path) || negb (isfile image_path) then
    ShowError SelectValidImage
  else
    let password := if use_password f then Some (password f) else None in
    if use_password f && negb (nonempty (default [] password)) then
      ShowError EnterPassword
    else if bool_decide (operation f = op_encode) then
      let message := strip (message_text f) in
      if negb (nonempty message) then ShowError EnterMessage
      else StartEncode image_path message password
    else StartDecode image_path password.

End Window.



(** ** Vocabulary of the paths *)

(** The index [_splitext] takes for the last separator. *)
Definition sep_index (p : str) (sep : Z) (altsep : option Z) : Z :=
  match altsep with
  | Some altsep => Z.max (rfind p sep) (rfind p altsep)
  | None => rfind p sep
  end.

Definition stego_stem : str := [95; 115; 116; 101; 103; 111].
Definition dot_png : str := [46; 112; 110; 103].

(** ** Further example inputs *)

(** The array [encode] returns for the message hi and the password pw. *)
Definition stego_hi : ndarray :=
  ok_or [] (fst (encode (R := MT19937_Random) carrier [104; 105] (Some [112; 119]) g0)).

(** An image of 5 by 6 pixels: 90 bits, the header and a few more. *)
Definition carrier_5x6 : ndarray := repeat (repeat (201, 101, 51) 5) 6.

(** An array that holds the frame of the single byte FF, which is not
    UTF-8, in raster order. *)
Definition raw_255 : ndarray :=
  ok_or [] (embed_loop (raster 6 6) (message_bits (marker ++ [1; 0; 0; 0] ++ [255])) 0 carrier).

(** The window filled in for an encode: the image a.png, the password pw
    and the text hi between a blank and a line end. *)
Definition form_encode : form :=
  {| image_path := [97; 46; 112; 110; 103];
     use_password := true;
     password := [112; 119];
     operation := op_encode;
     message_text := [32; 104; 105; 10] |}.

(** The same window switched to decode, after [_update_ui_for_operation]
    has emptied the text. *)
Definition form_decode : form :=
  {| image_path := [97; 95; 115; 116; 101; 103; 111; 46; 112; 110; 103];
     use_password := true;
     password := [112; 119];
     operation := [100; 101; 99; 111; 100; 101];
     message_text := [10] |}.

(** A file system in which every path is a file. *)
Definition any_file (p : str) : bool := true.

(** * Properties *)

(** ** Bytes and bits *)

(** A boolean property checked on every value below [n]. *)
Lemma Z_below_forallb (P : Z -> bool) (n : nat) :
  forallb P (map Z.of_nat (seq 0 n)) = true ->
  forall z, 0 <= z < Z.of_nat n -> P z = true.
Proof.
  intros Hall z Hz. rewrite forallb_forall in Hall. apply Hall.
  apply in_map_iff. exists (Z.to_nat z). split; [lia|].
  apply in_seq. lia.
Qed.

Ltac by_bytes b :=
  let H := fresh "H" in
  let z := fresh "z" in
  assert (H : 0 <= b < Z.of_nat 256) by (unfold is_byte in *; lia);
  revert H; generalize b; intros z H;
  apply (bool_decide_eq_true_1 _); revert z H;
  apply Z_below_forallb; vm_compute; reflexivity.

Lemma land_1_cases (z : Z) : Z.land z 1 = 0 \/ Z.land z 1 = 1.
Proof.
  change 1 with (Z.ones 1) at 1 2. rewrite Z.land_ones by lia.
  pose proof (Z.mod_pos_bound z 2). change (2 ^ 1) with 2. lia.
Qed.

Lemma embed_bit_lsb v bit :
  is_byte v -> Z.land (_embed_bit v bit) 1 = Z.land bit 1.
Proof.
  intros Hv. unfold _embed_bit.
  destruct (land_1_cases bit) as [-> | ->]; by_bytes v.
Qed.

Lemma embed_bit_high v bit :
  is_byte v -> Z.shiftr (_embed_bit v bit) 1 = Z.shiftr v 1.
Proof.
  intros Hv. unfold _embed_bit.
  destruct (land_1_cases bit) as [-> | ->]; by_bytes v.
Qed.

Lemma embed_bit_byte v bit : is_byte (_embed_bit v bit).
Proof.
  unfold _embed_bit, is_byte.
  set (w := Z.max 0 (Z.min 255 v)).
  assert (Hw : 0 <= w <= 255) by (unfold w; lia). clearbody w.
  destruct (land_1_cases bit) as [-> | ->]; by_bytes w.
Qed.

Ltac by_below b n :=
  let H := fresh "H" in
  let z := fresh "z" in
  assert (H : 0 <= b < Z.of_nat n) by lia;
  revert H; generalize b; intros z H;
  apply (bool_decide_eq_true_1 _); revert z H;
  apply Z_below_forallb; vm_compute; reflexivity.

(** Decide the integer comparisons of the goal with [lia]. *)
Ltac zbool :=
  repeat match goal with
    | |- context [?a <? ?b] => destruct (Z.ltb_spec a b); try lia
    | |- context [?a <=? ?b] => destruct (Z.leb_spec a b); try lia
    | |- context [?a =? ?b] => destruct (Z.eqb_spec a b); try lia
    end.

Lemma lor_shiftl_add a n d :
  0 <= n -> 0 <= d < 2 ^ n -> Z.lor (Z.shiftl a n) d = a * 2 ^ n + d.
Proof.
  intros Hn Hd. rewrite <- Z.shiftl_mul_pow2 by lia.
  rewrite <- (Z.add_lor_land (Z.shiftl a n) d).
  enough (Z.land (Z.shiftl a n) d = 0) by lia.
  apply Z.bits_inj'. intros m Hm.
  rewrite Z.land_spec, Z.bits_0.
  destruct (Z.lt_ge_cases m n).
  - rewrite Z.shiftl_spec_low by lia. reflexivity.
  - assert (Z.testbit d m = false) as ->; [|apply andb_false_r].
    destruct (Z.eq_dec d 0) as [-> | ?]; [apply Z.bits_0|].
    apply Z.bits_above_log2; [lia|].
    apply Z.log2_lt_pow2; [lia|].
    apply Z.lt_le_trans with (2 ^ n); [lia|].
    apply Z.pow_le_mono_r; lia.
Qed.

Lemma shiftr_div c n : 0 <= n -> Z.shiftr c n = c / 2 ^ n.
Proof. apply Z.shiftr_div_pow2. Qed.

Lemma land_low6 c : Z.land c 0x3F = c mod 64.
Proof. change 0x3F with (Z.ones 6). rewrite Z.land_ones by lia. reflexivity. Qed.

Module Utf8Facts.
Import Utf8.

Lemma cont_byte d :
  0 <= d < 64 ->
  Z.lor 0x80 d = 0x80 + d /\ Z.land (0x80 + d) 0x3F = d.
Proof. intros Hd. by_below d 64%nat. Qed.

Lemma lead2 h :
  0 <= h < 32 -> Z.lor 0xC0 h = 0xC0 + h /\ Z.land (0xC0 + h) 0x1F = h.
Proof. intros Hd. by_below h 32%nat. Qed.

Lemma lead3 h :
  0 <= h < 16 -> Z.lor 0xE0 h = 0xE0 + h /\ Z.land (0xE0 + h) 0x0F = h.
Proof. intros Hd. by_below h 16%nat. Qed.

Lemma lead4 h :
  0 <= h < 8 -> Z.lor 0xF0 h = 0xF0 + h /\ Z.land (0xF0 + h) 0x07 = h.
Proof. intros Hd. by_below h 8%nat. Qed.

Lemma cont_lor x : Z.lor 0x80 (Z.land x 0x3F) = cont x.
Proof.
  rewrite land_low6. unfold cont.
  apply cont_byte. apply Z.mod_pos_bound. lia.
Qed.

Lemma cont_is_cont x : is_cont (cont x) = true.
Proof.
  unfold is_cont, cont. pose proof (Z.mod_pos_bound x 64).
  apply andb_true_intro. split; [apply Z.leb_le | apply Z.leb_le]; lia.
Qed.

Lemma cont_low x : Z.land (cont x) 0x3F = x mod 64.
Proof. unfold cont. apply cont_byte. apply Z.mod_pos_bound. lia. Qed.

Lemma cont_byte_range x : is_byte (cont x).
Proof. unfold cont, is_byte. pose proof (Z.mod_pos_bound x 64). lia. Qed.

Lemma decode_cons b0 t0 :
  decode (b0 :: t0) =
    if (0 <=? b0) && (b0 <? 0x80) then cons b0 <$> decode t0
    else if (0xC2 <=? b0) && (b0 <=? 0xDF) then
      match t0 with
      | b1 :: t1 =>
          if is_cont b1 then cons (join2 b0 b1) <$> decode t1 else None
      | _ => None
      end
    else if (0xE0 <=? b0) && (b0 <=? 0xEF) then
      match t0 with
      | b1 :: b2 :: t2 =>
          let c := join3 b0 b1 b2 in
          if is_cont b1 && is_cont b2 && (0x800 <=? c)
             && negb ((0xD800 <=? c) && (c <=? 0xDFFF))
          then cons c <$> decode t2 else None
      | _ => None
      end
    else if (0xF0 <=? b0) && (b0 <=? 0xF4) then
      match t0 with
      | b1 :: b2 :: b3 :: t3 =>
          let c := join4 b0 b1 b2 b3 in
          if is_cont b1 && is_cont b2 && is_cont b3
             && (0x10000 <=? c) && (c <=? 0x10FFFF)
          then cons c <$> decode t3 else None
      | _ => None
      end
    else None.
Proof. reflexivity. Qed.

Lemma decode_1 b t :
  0 <= b < 0x80 -> decode (b :: t) = cons b <$> decode t.
Proof. intros Hb. rewrite decode_cons. zbool. reflexivity. Qed.

Lemma decode_2 b0 b1 t :
  0xC2 <= b0 <= 0xDF -> is_cont b1 = true ->
  decode (b0 :: b1 :: t) = cons (join2 b0 b1) <$> decode t.
Proof. intros Hb H1. rewrite decode_cons. cbv iota. rewrite H1. zbool. reflexivity. Qed.

Lemma decode_3 b0 b1 b2 t :
  0xE0 <= b0 <= 0xEF -> is_cont b1 = true -> is_cont b2 = true ->
  0x800 <= join3 b0 b1 b2 ->
  ~ (0xD800 <= join3 b0 b1 b2 <= 0xDFFF) ->
  decode (b0 :: b1 :: b2 :: t) = cons (join3 b0 b1 b2) <$> decode t.
Proof.
  intros Hb H1 H2 Hlo Hs. rewrite decode_cons. cbv iota zeta. rewrite H1, H2.
  zbool; reflexivity.
Qed.

Lemma decode_4 b0 b1 b2 b3 t :
  0xF0 <= b0 <= 0xF4 ->
  is_cont b1 = true -> is_cont b2 = true -> is_cont b3 = true ->
  0x10000 <= join4 b0 b1 b2 b3 <= 0x10FFFF ->
  decode (b0 :: b1 :: b2 :: b3 :: t) = cons (join4 b0 b1 b2 b3) <$> decode t.
Proof.
  intros Hb H1 H2 H3 Hr. rewrite decode_cons. cbv iota zeta. rewrite H1, H2, H3.
  zbool; reflexivity.
Qed.

Lemma join2_encode c :
  0x80 <= c < 0x800 ->
  exists b0, Z.lor 0xC0 (Z.shiftr c 6) = b0 /\ 0xC2 <= b0 <= 0xDF
             /\ join2 b0 (cont c) = c.
Proof.
  intros Hc. rewrite shiftr_div by lia. change (2 ^ 6) with 64.
  assert (Hh : 2 <= c / 64 < 32) by (Z.div_mod_to_equations; lia).
  destruct (lead2 (c / 64)) as [E1 E2]; [lia|].
  exists (0xC0 + c / 64). split; [exact E1|]. split; [lia|].
  unfold join2. rewrite E2, cont_low.
  rewrite lor_shiftl_add by (pose proof (Z.mod_pos_bound c 64); lia).
  change (2 ^ 6) with 64. Z.div_mod_to_equations; lia.
Qed.

Lemma join3_encode c :
  0x800 <= c < 0x10000 ->
  exists b0, Z.lor 0xE0 (Z.shiftr c 12) = b0 /\ 0xE0 <= b0 <= 0xEF
             /\ join3 b0 (cont (Z.shiftr c 6)) (cont c) = c.
Proof.
  intros Hc. rewrite !shiftr_div by lia.
  change (2 ^ 6) with 64. change (2 ^ 12) with 4096.
  assert (Hh : 0 <= c / 4096 < 16) by (Z.div_mod_to_equations; lia).
  destruct (lead3 (c / 4096)) as [E1 E2]; [lia|].
  exists (0xE0 + c / 4096). split; [exact E1|]. split; [lia|].
  unfold join3. rewrite E2, !cont_low.
  pose proof (Z.mod_pos_bound c 64). pose proof (Z.mod_pos_bound (c / 64) 64).
  rewrite (lor_shiftl_add _ 6) by lia.
  rewrite lor_shiftl_add by (change (2 ^ 6) with 64; change (2 ^ 12) with 4096; lia).
  change (2 ^ 6) with 64. change (2 ^ 12) with 4096.
  Z.div_mod_to_equations; lia.
Qed.

Lemma join4_encode c :
  0x10000 <= c < 0x110000 ->
  exists b0, Z.lor 0xF0 (Z.shiftr c 18) = b0 /\ 0xF0 <= b0 <= 0xF4
             /\ join4 b0 (cont (Z.shiftr c 12)) (cont (Z.shiftr c 6)) (cont c) = c.
Proof.
  intros Hc. rewrite !shiftr_div by lia.
  change (2 ^ 6) with 64. change (2 ^ 12) with 4096. change (2 ^ 18) with 262144.
  assert (Hh : 0 <= c / 262144 < 5) by (Z.div_mod_to_equations; lia).
  destruct (lead4 (c / 262144)) as [E1 E2]; [lia|].
  exists (0xF0 + c / 262144). split; [exact E1|]. split; [lia|].
  unfold join4. rewrite E2, !cont_low.
  pose proof (Z.mod_pos_bound c 64). pose proof (Z.mod_pos_bound (c / 64) 64).
  pose proof (Z.mod_pos_bound (c / 4096) 64).
  rewrite (lor_shiftl_add _ 6) by lia.
  rewrite (lor_shiftl_add _ 12) by (change (2 ^ 6) with 64; change (2 ^ 12) with 4096; lia).
  rewrite lor_shiftl_add
    by (change (2 ^ 6) with 64; change (2 ^ 12) with 4096;
        change (2 ^ 18) with 262144; lia).
  change (2 ^ 6) with 64. change (2 ^ 12) with 4096. change (2 ^ 18) with 262144.
  Z.div_mod_to_equations; lia.
Qed.

(** One code point: its bytes are bytes, there is at least one, and the
    decoder reads the code point back from them. *)
Lemma encode_char_spec c cs :
  encode_char c = Some cs ->
  Forall is_byte cs /\ cs <> [] /\
  forall t, decode (cs ++ t) = cons c <$> decode t.
Proof.
  unfold encode_char.
  destruct (Z.ltb_spec c 0); [discriminate|].
  destruct (Z.ltb_spec c 0x80).
  { intros [= <-]. split; [|split]; [|discriminate|].
    - repeat constructor; lia.
    - intros t. apply decode_1. lia. }
  destruct (Z.ltb_spec c 0x800).
  { intros [= <-]. destruct (join2_encode c) as (b0 & -> & Hb0 & Hj); [lia|].
    rewrite cont_lor. split; [|split]; [|discriminate|].
    - repeat constructor; try apply cont_byte_range; unfold is_byte; lia.
    - intros t. cbn [app]. rewrite decode_2 by (auto using cont_is_cont).
      rewrite Hj. reflexivity. }
  destruct (Z.leb_spec 0xD800 c); destruct (Z.leb_spec c 0xDFFF);
    cbn [andb]; try discriminate.
  all: destruct (Z.ltb_spec c 0x10000).
  all: try (intros [= <-]; destruct (join3_encode c) as (b0 & -> & Hb0 & Hj); [lia|];
            rewrite !cont_lor; split; [|split]; [|discriminate|];
            [ repeat constructor; try apply cont_byte_range; unfold is_byte; lia
            | intros t; cbn [app];
              rewrite decode_3 by (auto using cont_is_cont; rewrite Hj; lia);
              rewrite Hj; reflexivity ]).
  all: destruct (Z.ltb_spec c 0x110000); try discriminate.
  all: intros [= <-]; destruct (join4_encode c) as (b0 & -> & Hb0 & Hj); [lia|];
       rewrite !cont_lor; split; [|split]; [|discriminate|];
       [ repeat constructor; try apply cont_byte_range; unfold is_byte; lia
       | intros t; cbn [app];
         rewrite decode_4 by (auto using cont_is_cont; rewrite Hj; lia);
         rewrite Hj; reflexivity ].
Qed.

Lemma encode_spec s bs :
  encode s = Some bs ->
  Forall is_byte bs /\ (length s <= length bs)%nat /\ decode bs = Some s.
Proof.
  revert bs. induction s as [|c s IH]; intros bs; cbn [encode].
  - intros [= <-]. repeat split; auto.
  - destruct (encode_char c) as [cs|] eqn:Hc; [|discriminate].
    destruct (encode s) as [bs'|] eqn:Hs; [|discriminate].
    intros [= <-]. destruct (encode_char_spec c cs Hc) as (Hb & Hne & Hd).
    destruct (IH bs' eq_refl) as (Hb' & Hlen & Hd').
    split; [|split].
    + apply Forall_app; auto.
    + rewrite length_app. destruct cs; [congruence|]. cbn [length]. lia.
    + rewrite Hd, Hd'. reflexivity.
Qed.

Lemma encode_nil_inv s : encode s = Some [] -> s = [].
Proof.
  intros Hs. apply encode_spec in Hs as (_ & Hlen & _).
  destruct s; [reflexivity | cbn in Hlen; lia].
Qed.

End Utf8Facts.

(** ** Arrays *)

Lemma rect_row a y row : rect a -> a !! y = Some row -> length row = width a.
Proof. intros Ha Hy. exact (proj1 (Forall_lookup _ a) Ha y row Hy). Qed.

Lemma getitem_in_shape a y x :
  rect a -> (x < width a)%nat -> (y < height a)%nat -> is_Some (getitem a y x).
Proof.
  intros Ha Hx Hy. unfold getitem.
  destruct (lookup_lt_is_Some_2 a y Hy) as [row Hrow]. rewrite Hrow.
  apply lookup_lt_is_Some_2. rewrite (rect_row a y row); auto.
Qed.

Lemma getitem_Some_in_shape a y x p :
  rect a -> getitem a y x = Some p -> in_shape a (x, y).
Proof.
  unfold getitem, in_shape. intros Ha Hp.
  destruct (a !! y) as [row|] eqn:Hrow; [|discriminate].
  apply lookup_lt_Some in Hp, Hrow as Hy.
  rewrite (rect_row a y row) in Hp by auto. auto.
Qed.

Lemma uint8_getitem a y x p : uint8 a -> getitem a y x = Some p -> uint8_pixel p.
Proof.
  unfold getitem. intros Ha Hp.
  destruct (a !! y) as [row|] eqn:Hrow; [|discriminate].
  pose proof (proj1 (Forall_lookup _ a) Ha y row Hrow) as Hr.
  exact (proj1 (Forall_lookup _ row) Hr x p Hp).
Qed.

Lemma width_insert a y row row' :
  a !! y = Some row -> length row' = length row ->
  width (<[y := row']> a) = width a.
Proof.
  destruct a as [|r a]; [discriminate|]. destruct y; simpl.
  - intros [= ->]. auto.
  - auto.
Qed.

(** [a[y, x] = p] on a pixel of the array. *)
Lemma setitem_spec a y x p0 p :
  getitem a y x = Some p0 ->
  exists a',
    setitem a y x p = Some a' /\
    height a' = height a /\ width a' = width a /\
    (rect a -> rect a') /\
    (uint8 a -> uint8_pixel p -> uint8 a') /\
    getitem a' y x = Some p /\
    (forall y' x', (x', y') <> (x, y) -> getitem a' y' x' = getitem a y' x').
Proof.
  unfold getitem, setitem. intros Hp0.
  destruct (a !! y) as [row|] eqn:Hrow; [|discriminate].
  apply lookup_lt_Some in Hp0 as Hx. apply lookup_lt_Some in Hrow as Hy.
  destruct (decide (x < length row)%nat); [|lia].
  eexists. split; [reflexivity|].
  assert (Hw : width (<[y := <[x := p]> row]> a) = width a)
    by (apply (width_insert a y row); auto using length_insert).
  split; [apply length_insert|]. split; [exact Hw|].
  split; [|split; [|split]].
  - unfold rect. rewrite Hw. intros Ha. apply Forall_insert; auto.
    rewrite length_insert. eapply rect_row; eauto.
  - intros Ha Hp. apply Forall_insert; auto.
    apply Forall_insert; auto.
    exact (proj1 (Forall_lookup _ a) Ha y row Hrow).
  - rewrite list_lookup_insert_eq by auto. apply list_lookup_insert_eq; auto.
  - intros y' x' Hne. destruct (decide (y' = y)) as [-> | Hy'].
    + rewrite list_lookup_insert_eq by auto. rewrite Hrow.
      apply list_lookup_insert_ne. congruence.
    + rewrite list_lookup_insert_ne by auto. reflexivity.
Qed.

(** ** The embedding loop *)

Lemma embed_value_ge bits i v : (length bits <= i)%nat -> embed_value bits i v = v.
Proof. intros Hi. unfold embed_value. rewrite lookup_ge_None_2; auto. Qed.

Lemma embed_pixel_ge bits i p : (length bits <= i)%nat -> embed_pixel bits i p = p.
Proof.
  intros Hi. destruct p as [[r g] b]. unfold embed_pixel.
  rewrite !embed_value_ge by lia. reflexivity.
Qed.

(** Lines 116-126 on one pixel: the three channels, and the index after. *)
Lemma embed_channels bits i r g b :
  exists i',
    (let '(r', i1) := embed_channel bits r i in
     let '(g', i2) := embed_channel bits g i1 in
     let '(b', i3) := embed_channel bits b i2 in
     (r', g', b', i3)) = (embed_pixel bits i (r, g, b), i') /\
    (i <= i' <= i + 3)%nat /\ (i' < i + 3 -> length bits <= i')%nat.
Proof.
  unfold embed_channel, embed_pixel, embed_value.
  replace (i + 1)%nat with (S i) by lia.
  replace (i + 2)%nat with (S (S i)) by lia.
  destruct (bits !! i) as [b0|] eqn:H0; cbv beta iota.
  - destruct (bits !! S i) as [b1|] eqn:H1; cbv beta iota.
    + destruct (bits !! S (S i)) as [b2|] eqn:H2; cbv beta iota.
      * exists (S (S (S i))). split; [reflexivity|]. lia.
      * exists (S (S i)). split; [reflexivity|].
        apply lookup_ge_None in H2. lia.
    + rewrite H1. cbv beta iota.
      rewrite (lookup_ge_None_2 bits (S (S i)))
        by (apply lookup_ge_None in H1; lia).
      exists (S i). split; [reflexivity|]. apply lookup_ge_None in H1. lia.
  - rewrite H0. cbv beta iota. rewrite H0. cbv beta iota.
    apply lookup_ge_None in H0.
    rewrite (lookup_ge_None_2 bits (S i)), (lookup_ge_None_2 bits (S (S i))) by lia.
    exists i. split; [reflexivity|]. lia.
Qed.

Lemma embed_pixel_shift bits i i' k p :
  (i <= i' <= i + 3)%nat -> (i' < i + 3 -> length bits <= i')%nat ->
  embed_pixel bits (i' + 3 * k) p = embed_pixel bits (i + 3 * S k) p.
Proof.
  intros Hi Hlen. destruct (decide (i' = i + 3)%nat) as [-> | Hne].
  - f_equal. lia.
  - rewrite !embed_pixel_ge by lia. reflexivity.
Qed.

(** The array after the loop, pixel by pixel: the [k]-th visited pixel
    meets bits [i + 3k], [i + 3k + 1], [i + 3k + 2]; every other pixel is
    the one of the input. *)
Lemma embed_loop_spec cs : forall bits i a,
  rect a -> NoDup cs -> Forall (in_shape a) cs ->
  exists a',
    embed_loop cs bits i a = Ok a' /\
    height a' = height a /\ width a' = width a /\ rect a' /\
    (forall k c, cs !! k = Some c ->
       getc a' c = embed_pixel bits (i + 3 * k) <$> getc a c) /\
    (forall c, c ∉ cs -> getc a' c = getc a c).
Proof.
  induction cs as [|[x y] cs IH]; intros bits i a Ha Hnd Hin.
  - exists a. cbn. repeat split; auto. intros k c Hk. discriminate.
  - cbn [embed_loop]. destruct (Nat.leb_spec (length bits) i) as [Hge | Hlt].
    { exists a. repeat split; auto. intros k c Hk.
      rewrite (option_fmap_ext _ id); [by rewrite option_fmap_id|].
      intros p. apply embed_pixel_ge. lia. }
    apply NoDup_cons in Hnd as [Hnotin Hnd].
    apply Forall_cons in Hin as [[Hx Hy] Hin]. cbn in Hx, Hy.
    destruct (getitem_in_shape a y x Ha Hx Hy) as [[[r g] b] Hp]. rewrite Hp.
    destruct (embed_channels bits i r g b) as (i' & Hch & Hi & Hlen).
    destruct (embed_channel bits r i) as [r' i1].
    destruct (embed_channel bits g i1) as [g' i2].
    destruct (embed_channel bits b i2) as [b' i3].
    cbv beta iota in Hch |- *.
    assert (Hpix : (r', g', b') = embed_pixel bits i (r, g, b)) by congruence.
    assert (i3 = i') as -> by congruence. clear Hch.
    destruct (setitem_spec a y x (r, g, b) (r', g', b') Hp)
      as (a1 & Hset & Hh1 & Hw1 & Hr1 & _ & Hsame & Hother).
    rewrite Hset.
    destruct (IH bits i' a1) as (a' & Hloop & Hh & Hw & Hr & Hvis & Hrest); auto.
    { eapply Forall_impl; [exact Hin|]. unfold in_shape. intros c. rewrite Hh1, Hw1. auto. }
    exists a'. split; [exact Hloop|]. split; [congruence|]. split; [congruence|].
    split; [exact Hr|]. split.
    + intros [|k] c Hk.
      * injection Hk as <-. rewrite Hrest by auto. unfold getc. cbn [fst snd].
        rewrite Hsame, Hp, Nat.mul_0_r, Nat.add_0_r, Hpix. reflexivity.
      * cbn in Hk. rewrite (Hvis k c Hk).
        assert (c <> (x, y)) as Hne
          by (intros ->; apply Hnotin; eapply list_elem_of_lookup_2; eauto).
        assert (getc a1 c = getc a c) as ->
          by (unfold getc; apply Hother; destruct c; cbn; congruence).
        apply option_fmap_ext.
        intros p. apply embed_pixel_shift; auto.
    + intros c Hc. apply not_elem_of_cons in Hc as [Hne Hc].
      rewrite Hrest by auto. unfold getc. apply Hother.
      destruct c; cbn; congruence.
Qed.

(** ** The extraction loop *)

Lemma lsb3_length p : length (lsb3 p) = 3%nat.
Proof. destruct p as [[r g] b]. reflexivity. Qed.

Lemma lsb_stream_length a cs :
  rect a -> Forall (in_shape a) cs -> length (lsb_stream a cs) = (3 * length cs)%nat.
Proof.
  intros Ha. induction 1 as [|[x y] cs [Hx Hy] Hcs IH]; [reflexivity|].
  cbn [lsb_stream flat_map length]. rewrite length_app. fold (lsb_stream a cs).
  rewrite IH. unfold getc. cbn [fst snd] in *.
  destruct (getitem_in_shape a y x Ha Hx Hy) as [p ->]. cbn [from_option].
  rewrite lsb3_length. lia.
Qed.

Lemma lsb_stream_cons a x y p cs :
  getitem a y x = Some p -> lsb_stream a ((x, y) :: cs) = lsb3 p ++ lsb_stream a cs.
Proof. intros Hp. unfold lsb_stream, getc. cbn [flat_map fst snd]. rewrite Hp. reflexivity. Qed.

Lemma lsb_stream_app a cs1 cs2 :
  lsb_stream a (cs1 ++ cs2) = lsb_stream a cs1 ++ lsb_stream a cs2.
Proof. unfold lsb_stream. apply flat_map_app. Qed.

Lemma lsb_stream_lookup a cs : forall k m c p,
  rect a -> Forall (in_shape a) cs ->
  cs !! k = Some c -> getc a c = Some p -> (m < 3)%nat ->
  lsb_stream a cs !! (3 * k + m)%nat = lsb3 p !! m.
Proof.
  induction cs as [|c0 cs IH]; intros k m c p Ha Hin Hk Hp Hm; [discriminate|].
  apply Forall_cons in Hin as [[Hx Hy] Hin].
  cbn [lsb_stream flat_map]. fold (lsb_stream a cs).
  destruct (getitem_in_shape a (snd c0) (fst c0) Ha Hx Hy) as [p0 Hp0].
  unfold getc at 1. rewrite Hp0. cbn [from_option].
  destruct k as [|k].
  - injection Hk as ->. unfold getc in Hp. rewrite Hp0 in Hp. injection Hp as ->.
    rewrite lookup_app_l by (rewrite lsb3_length; lia). f_equal.
  - rewrite lookup_app_r by (rewrite lsb3_length; lia).
    rewrite lsb3_length. replace (3 * S k + m - 3)%nat with (3 * k + m)%nat by lia.
    eapply IH; eauto.
Qed.

(** The loop reads the pixels of a prefix of the coordinates, in order, and
    stops with enough bits or at the end of the coordinates. *)
Lemma extract_loop_spec cs : forall needed a ext,
  rect a -> Forall (in_shape a) cs ->
  exists n,
    (n <= length cs)%nat /\
    extract_loop cs needed a ext = Ok (ext ++ lsb_stream a (take n cs)) /\
    (needed <= length ext + 3 * n \/ n = length cs)%nat.
Proof.
  induction cs as [|[x y] cs IH]; intros needed a ext Ha Hin.
  - exists 0%nat. cbn. rewrite app_nil_r. auto.
  - cbn [extract_loop]. destruct (Nat.leb_spec needed (length ext)) as [Hge | Hlt].
    { exists 0%nat. cbn. rewrite app_nil_r. split; [lia|]. split; [reflexivity|]. lia. }
    apply Forall_cons in Hin as [[Hx Hy] Hin]. cbn in Hx, Hy.
    destruct (getitem_in_shape a y x Ha Hx Hy) as [[[r g] b] Hp]. rewrite Hp.
    destruct (IH needed a (ext ++ [_extract_bit r; _extract_bit g; _extract_bit b]) Ha Hin)
      as (n & Hn & Hloop & Hstop).
    exists (S n). split; [cbn; lia|]. split.
    + rewrite Hloop. cbn [take]. rewrite (lsb_stream_cons a x y _ _ Hp).
      rewrite <- app_assoc. reflexivity.
    + rewrite length_app in Hstop. cbn [length] in *. lia.
Qed.

(** ** Bits and bytes *)

Lemma byte_bits_length b : length (byte_bits b) = 8%nat.
Proof. reflexivity. Qed.

Lemma message_bits_length bs : length (message_bits bs) = (8 * length bs)%nat.
Proof.
  induction bs as [|b bs IH]; [reflexivity|].
  cbn [message_bits flat_map length]. rewrite length_app, byte_bits_length.
  fold (message_bits bs). lia.
Qed.

Lemma byte_bits_lookup b j :
  (j < 8)%nat -> byte_bits b !! j = Some (Z.land (Z.shiftr b (Z.of_nat j)) 1).
Proof.
  intros Hj. unfold byte_bits.
  do 8 (destruct j as [|j]; [reflexivity|]). lia.
Qed.

Lemma message_bits_lookup bs : forall k j b,
  bs !! k = Some b -> (j < 8)%nat ->
  message_bits bs !! (8 * k + j)%nat = Some (Z.land (Z.shiftr b (Z.of_nat j)) 1).
Proof.
  induction bs as [|b0 bs IH]; intros k j b Hk Hj; [discriminate|].
  cbn [message_bits flat_map]. fold (message_bits bs). destruct k as [|k].
  - injection Hk as ->. rewrite lookup_app_l by (rewrite byte_bits_length; lia).
    rewrite Nat.mul_0_r. apply byte_bits_lookup. exact Hj.
  - rewrite lookup_app_r by (rewrite byte_bits_length; lia).
    rewrite byte_bits_length. replace (8 * S k + j - 8)%nat with (8 * k + j)%nat by lia.
    apply IH; auto.
Qed.

(** Bits of the frame are 0 or 1. *)
Lemma message_bits_01 bs j bit :
  message_bits bs !! j = Some bit -> Z.land bit 1 = bit.
Proof.
  revert j. induction bs as [|b bs IH]; intros j; [discriminate|].
  cbn [message_bits flat_map]. fold (message_bits bs).
  rewrite lookup_app. destruct (byte_bits b !! j) as [x|] eqn:Hx.
  - intros [= <-]. apply lookup_lt_Some in Hx as Hj. rewrite byte_bits_length in Hj.
    rewrite byte_bits_lookup in Hx by exact Hj. injection Hx as <-.
    rewrite <- Z.land_assoc. reflexivity.
  - apply IH.
Qed.

Lemma assemble_byte_bits ext i b :
  is_byte b ->
  (forall j, (j < 8)%nat -> ext !! (i + j)%nat = Some (Z.land (Z.shiftr b (Z.of_nat j)) 1)) ->
  assemble_byte ext i = b.
Proof.
  intros Hb Hbits. unfold assemble_byte. cbn [seq fold_left].
  rewrite !Hbits by lia. cbn [default].
  by_bytes b.
Qed.

Lemma bits_to_bytes_S n ext :
  bits_to_bytes (S n) ext =
    bits_to_bytes n ext ++
      (if decide (8 * n + 8 <= length ext)%nat then [assemble_byte ext (8 * n)] else []).
Proof.
  unfold bits_to_bytes. rewrite seq_S, flat_map_app. cbn [flat_map Nat.add].
  rewrite app_nil_r. reflexivity.
Qed.

Lemma bits_to_bytes_length n ext :
  length (bits_to_bytes n ext) = Nat.min n (length ext / 8).
Proof.
  induction n as [|n IH]; [reflexivity|].
  rewrite bits_to_bytes_S, length_app, IH.
  pose proof (Nat.div_mod_eq (length ext) 8) as Hd.
  pose proof (Nat.mod_upper_bound (length ext) 8) as Hm.
  destruct (decide (8 * n + 8 <= length ext)%nat); cbn [length]; lia.
Qed.

(** Bytes are read back from their bits. *)
Lemma bits_to_bytes_prefix bs ext : forall n,
  Forall is_byte bs -> (n <= length bs)%nat -> (8 * n <= length ext)%nat ->
  (forall j bit, (j < 8 * n)%nat -> message_bits bs !! j = Some bit -> ext !! j = Some bit) ->
  bits_to_bytes n ext = take n bs.
Proof.
  intros n Hbs. induction n as [|n IH]; intros Hn Hlen Hext; [reflexivity|].
  rewrite bits_to_bytes_S, IH; [|lia|lia|intros j bit Hj; apply Hext; lia].
  destruct (decide (8 * n + 8 <= length ext)%nat); [|lia].
  destruct (lookup_lt_is_Some_2 bs n) as [b Hb]; [lia|].
  rewrite (take_S_r bs n b Hb). f_equal. f_equal.
  apply assemble_byte_bits.
  - exact (proj1 (Forall_lookup _ bs) Hbs n b Hb).
  - intros j Hj. apply Hext; [lia|]. apply message_bits_lookup; auto.
Qed.

(** ** [struct] and the digest *)

Lemma land_byte z : Z.land z 0xFF = z mod 256.
Proof. change 0xFF with (Z.ones 8). rewrite Z.land_ones by lia. reflexivity. Qed.

Lemma lor_mul_add a n d :
  0 <= n -> 0 <= d < 2 ^ n -> Z.lor (a * 2 ^ n) d = a * 2 ^ n + d.
Proof. intros. rewrite <- lor_shiftl_add, Z.shiftl_mul_pow2 by lia. reflexivity. Qed.

Lemma struct_pack_I_spec n l :
  struct_pack_I n = Some l ->
  Z.of_nat n < 2 ^ 32 /\ length l = 4%nat /\ Forall is_byte l /\
  struct_unpack_I l = Some (Z.of_nat n).
Proof.
  unfold struct_pack_I. cbv zeta. set (z := Z.of_nat n).
  assert (Hz : 0 <= z) by (unfold z; lia). clearbody z.
  destruct (Z.ltb_spec z (2 ^ 32)) as [Hlt|]; [|discriminate].
  intros [= <-]. rewrite !land_byte, !shiftr_div by lia.
  change (2 ^ 8) with 256. change (2 ^ 16) with 65536. change (2 ^ 24) with 16777216.
  change (2 ^ 32) with 4294967296 in *.
  pose proof (Z.mod_pos_bound z 256). pose proof (Z.mod_pos_bound (z / 256) 256).
  pose proof (Z.mod_pos_bound (z / 65536) 256).
  pose proof (Z.mod_pos_bound (z / 16777216) 256).
  split; [lia|]. split; [reflexivity|]. split.
  { repeat constructor; unfold is_byte; lia. }
  unfold struct_unpack_I. f_equal.
  set (b0 := z mod 256) in *. set (b1 := (z / 256) mod 256) in *.
  set (b2 := (z / 65536) mod 256) in *. set (b3 := (z / 16777216) mod 256) in *.
  rewrite !Z.shiftl_mul_pow2 by lia.
  rewrite (Z.lor_comm (b2 * 2 ^ 16)), (lor_mul_add b3 24)
    by (change (2 ^ 16) with 65536; change (2 ^ 24) with 16777216; lia).
  rewrite (Z.lor_comm (b1 * 2 ^ 8)).
  replace (b3 * 2 ^ 24 + b2 * 2 ^ 16) with ((b3 * 256 + b2) * 2 ^ 16) by lia.
  rewrite lor_mul_add
    by (change (2 ^ 8) with 256; change (2 ^ 16) with 65536; lia).
  rewrite Z.lor_comm.
  replace ((b3 * 256 + b2) * 2 ^ 16 + b1 * 2 ^ 8)
    with (((b3 * 256 + b2) * 256 + b1) * 2 ^ 8) by lia.
  rewrite lor_mul_add by (change (2 ^ 8) with 256; lia).
  change (2 ^ 8) with 256. unfold b0, b1, b2, b3.
  Z.div_mod_to_equations. lia.
Qed.

Lemma int_from_bytes_big_snoc l x :
  int_from_bytes_big (l ++ [x]) = Z.lor (Z.shiftl (int_from_bytes_big l) 8) x.
Proof. unfold int_from_bytes_big. rewrite fold_left_app. reflexivity. Qed.

Lemma int_from_bytes_big_range l :
  Forall is_byte l -> 0 <= int_from_bytes_big l < 256 ^ Z.of_nat (length l).
Proof.
  induction l as [|x l IH] using rev_ind; intros Hl.
  - cbn. lia.
  - apply Forall_app in Hl as [Hl Hx]. rewrite Forall_singleton in Hx.
    specialize (IH Hl). rewrite int_from_bytes_big_snoc, length_app. cbn [length].
    rewrite lor_shiftl_add by (unfold is_byte in Hx; change (2 ^ 8) with 256; lia).
    change (2 ^ 8) with 256.
    replace (Z.of_nat (length l + 1)) with (Z.of_nat (length l) + 1) by lia.
    rewrite Z.pow_add_r by lia. change (256 ^ 1) with 256.
    unfold is_byte in Hx. nia.
Qed.

Module Sha256Facts.
Import Sha256.

Lemma word_bytes_spec w : length (word_bytes w) = 4%nat /\ Forall is_byte (word_bytes w).
Proof.
  split; [reflexivity|]. unfold word_bytes.
  repeat constructor; rewrite land_byte;
    pose proof (Z.mod_pos_bound (Z.shiftr w 24) 256);
    pose proof (Z.mod_pos_bound (Z.shiftr w 16) 256);
    pose proof (Z.mod_pos_bound (Z.shiftr w 8) 256);
    pose proof (Z.mod_pos_bound w 256); unfold is_byte; lia.
Qed.

Lemma round_length s kw : length (round s kw) = length s.
Proof.
  unfold round.
  do 9 (destruct s as [|? s]; try reflexivity).
Qed.

Lemma rounds_length l s : length (fold_left round l s) = length s.
Proof.
  revert s. induction l as [|kw l IH]; intros s; [reflexivity|].
  cbn [fold_left]. rewrite IH. apply round_length.
Qed.

Lemma compress_length h block : length (compress h block) = length h.
Proof.
  unfold compress. rewrite length_map, length_combine, rounds_length. lia.
Qed.

Lemma blocks_length n : forall b h, length (blocks n b h) = length h.
Proof.
  induction n as [|n IH]; intros b h; [reflexivity|].
  cbn [blocks]. rewrite IH. apply compress_length.
Qed.

Lemma flat_map_word_bytes ws :
  length (flat_map word_bytes ws) = (4 * length ws)%nat /\
  Forall is_byte (flat_map word_bytes ws).
Proof.
  induction ws as [|w ws [IHl IHb]]; [split; [reflexivity | constructor]|].
  cbn [flat_map]. destruct (word_bytes_spec w) as [Hl Hb]. split.
  - rewrite length_app, Hl, IHl. cbn [length]. lia.
  - apply Forall_app; auto.
Qed.

(** The digest has 32 bytes. *)
Lemma digest_spec m : length (digest m) = 32%nat /\ Forall is_byte (digest m).
Proof.
  unfold digest. cbv zeta.
  destruct (flat_map_word_bytes (blocks (length (pad m) / 64) (pad m) H0)) as [Hl Hb].
  split; [|exact Hb]. rewrite Hl, blocks_length. reflexivity.
Qed.

End Sha256Facts.

(** ** Pixel order *)

Lemma coord_of_row w y x : (x < w)%nat -> coord_of w (w * y + x) = (x, y).
Proof.
  intros Hx. unfold coord_of. f_equal.
  - symmetry. apply (Nat.mod_unique _ _ y); auto.
  - symmetry. apply (Nat.div_unique _ _ _ x); auto.
Qed.

Lemma coord_of_inj w i j : (0 < w)%nat -> coord_of w i = coord_of w j -> i = j.
Proof.
  unfold coord_of. intros Hw [= Hm Hd].
  rewrite (Nat.div_mod_eq i w), (Nat.div_mod_eq j w). congruence.
Qed.

Lemma raster_coord_of w h : raster w h = map (coord_of w) (seq 0 (w * h)).
Proof.
  unfold raster. induction h as [|h IH].
  - rewrite Nat.mul_0_r. reflexivity.
  - rewrite seq_S, flat_map_app, IH. cbn [flat_map Nat.add]. rewrite app_nil_r.
    replace (w * S h)%nat with (w * h + w)%nat by lia.
    rewrite seq_app, map_app. f_equal. cbn [Nat.add].
    apply list_eq. intros k. rewrite !list_lookup_fmap.
    destruct (decide (k < w)%nat) as [Hk | Hk].
    + rewrite !lookup_seq_lt by lia. cbn. rewrite coord_of_row by lia. reflexivity.
    + rewrite !lookup_seq_ge by lia. reflexivity.
Qed.

Lemma grid_order_fmap w h pixels :
  pixels ≡ₚ seq 0 (w * h) -> grid_order w h (map (coord_of w) pixels).
Proof.
  intros Hperm. split; [|split].
  - rewrite length_map, Hperm, length_seq. reflexivity.
  - destruct w as [|w].
    + cbn in Hperm. apply Permutation_nil_r in Hperm as ->. constructor.
    + apply NoDup_fmap_2_strong.
      * intros i j _ _. apply coord_of_inj. lia.
      * rewrite Hperm. apply NoDup_seq.
  - intros x y. rewrite list_elem_of_fmap. split.
    + intros (i & Hi & Hin). rewrite Hperm, elem_of_seq in Hin.
      injection Hi as -> ->.
      assert (0 < w)%nat by (destruct w; lia).
      split; [apply Nat.mod_upper_bound; lia|].
      apply Nat.Div0.div_lt_upper_bound. lia.
    + intros [Hx Hy]. exists (w * y + x)%nat. split.
      * symmetry. apply coord_of_row. exact Hx.
      * rewrite Hperm, elem_of_seq. nia.
Qed.

Lemma raster_grid_order w h : grid_order w h (raster w h).
Proof. rewrite raster_coord_of. apply grid_order_fmap. reflexivity. Qed.

Lemma raster_lookup w h x y :
  (x < w)%nat -> (y < h)%nat -> raster w h !! (y * w + x)%nat = Some (x, y).
Proof.
  intros Hx Hy. rewrite raster_coord_of, list_lookup_fmap.
  rewrite lookup_seq_lt by nia. cbn.
  replace (y * w + x)%nat with (w * y + x)%nat by lia.
  rewrite coord_of_row by lia. reflexivity.
Qed.

Lemma grid_order_in_shape a cs :
  grid_order (width a) (height a) cs -> Forall (in_shape a) cs.
Proof.
  intros (_ & _ & Hin). apply Forall_forall. intros [x y] Hc.
  apply Hin in Hc. exact Hc.
Qed.

Section ShuffleFacts.

Context {R : Random}.

Lemma swap_Permutation x i j x' : swap x i j = Some x' -> x' ≡ₚ x.
Proof.
  unfold swap. destruct (x !! i) as [a|] eqn:Hi; [|discriminate].
  destruct (x !! j) as [b|] eqn:Hj; [|discriminate]. intros [= <-].
  apply lookup_lt_Some in Hi as Hil. apply lookup_lt_Some in Hj as Hjl.
  apply Permutation_inj. split; [by rewrite !length_insert|].
  exists (fun k => if decide (k = j) then i else if decide (k = i) then j else k).
  split.
  - intros k1 k2. repeat case_decide; lia.
  - intros k. repeat case_decide; subst.
    + rewrite list_lookup_insert_eq by (rewrite length_insert; lia). congruence.
    + rewrite list_lookup_insert_ne by auto.
      rewrite list_lookup_insert_eq by lia. congruence.
    + rewrite !list_lookup_insert_ne by auto. reflexivity.
Qed.

(** [random.shuffle] returns, with a permutation of its argument. *)
Lemma shuffle_loop_spec i : forall x g,
  (i < length x \/ i = 0)%nat ->
  exists x' g', shuffle_loop i x g = (Ok x', g') /\ x' ≡ₚ x.
Proof.
  induction i as [|i IH]; intros x g Hi.
  - exists x, g. split; reflexivity.
  - cbn [shuffle_loop]. pose proof (randbelow_lt g (S i + 1)) as Hj.
    destruct (randbelow g (S i + 1)) as [j g']. cbn [fst] in Hj.
    destruct (lookup_lt_is_Some_2 x (S i)) as [a Ha]; [lia|].
    destruct (lookup_lt_is_Some_2 x j) as [b Hb]; [lia|].
    destruct (swap x (S i) j) as [x1|] eqn:Hswap;
      [|unfold swap in Hswap; rewrite Ha, Hb in Hswap; discriminate].
    apply swap_Permutation in Hswap as Hperm.
    destruct (IH x1 g') as (x' & g'' & Hloop & Hperm');
      [rewrite Hperm; lia|].
    exists x', g''. split; [exact Hloop|]. by rewrite Hperm'.
Qed.

Lemma shuffle_spec x g :
  exists x' g', shuffle x g = (Ok x', g') /\ x' ≡ₚ x.
Proof. unfold shuffle. apply shuffle_loop_spec. destruct x; cbn; lia. Qed.

End ShuffleFacts.

Section CodecFacts.

Context {R : Random}.

Lemma pixel_order_no_password w h p g :
  truthy p = false -> pixel_order w h p g = (Ok (raster w h), g).
Proof. intros Hp. unfold pixel_order. rewrite Hp. reflexivity. Qed.

Lemma pixel_order_password w h p b g :
  truthy p = true -> Utf8.encode (default [] p) = Some b ->
  pixel_order w h p g = shuffled_order w h (password_seed b).
Proof.
  intros Hp Hb. unfold pixel_order, shuffled_order. rewrite Hp.
  unfold bind, lift_option. rewrite Hb. unfold ret, seed. cbv beta iota.
  fold (password_seed b).
  destruct (shuffle (seq 0 (w * h)) (random_seed (password_seed b))) as [[pixels|e] g'];
    reflexivity.
Qed.

Lemma pixel_order_unencodable w h p g :
  truthy p = true -> Utf8.encode (default [] p) = None ->
  pixel_order w h p g = (Raise UnicodeEncodeError, g).
Proof.
  intros Hp Hb. unfold pixel_order. rewrite Hp.
  unfold bind, lift_option. rewrite Hb. reflexivity.
Qed.

Lemma shuffled_order_spec w h s :
  exists pixels g,
    shuffle (seq 0 (w * h)) (random_seed s) = (Ok pixels, g) /\
    pixels ≡ₚ seq 0 (w * h) /\
    shuffled_order w h s = (Ok (map (coord_of w) pixels), g).
Proof.
  destruct (shuffle_spec (seq 0 (w * h)) (random_seed s)) as (pixels & g & Hs & Hperm).
  exists pixels, g. unfold shuffled_order. rewrite Hs. auto.
Qed.

(** The generator returns, and its sequence visits the grid once. *)
Lemma pixel_order_grid w h p g :
  encodable (default [] p) ->
  exists cs g', pixel_order w h p g = (Ok cs, g') /\ grid_order w h cs.
Proof.
  intros [b Hb]. destruct (truthy p) eqn:Hp.
  - rewrite (pixel_order_password w h p b g Hp Hb).
    destruct (shuffled_order_spec w h (password_seed b)) as (pixels & g' & _ & Hperm & ->).
    exists (map (coord_of w) pixels), g'. split; [reflexivity|].
    apply grid_order_fmap. exact Hperm.
  - rewrite (pixel_order_no_password w h p g Hp).
    exists (raster w h), g. split; [reflexivity | apply raster_grid_order].
Qed.

(** The result of the generator does not depend on the state of the
    global generator it is called in. *)
Lemma pixel_order_state w h p g1 g2 :
  fst (pixel_order w h p g1) = fst (pixel_order w h p g2).
Proof.
  destruct (truthy p) eqn:Hp.
  - destruct (Utf8.encode (default [] p)) as [b|] eqn:Hb.
    + rewrite !(pixel_order_password w h p b) by auto. reflexivity.
    + rewrite !pixel_order_unencodable by auto. reflexivity.
  - rewrite !pixel_order_no_password by auto. reflexivity.
Qed.

Lemma frame_spec message_data message_bytes :
  frame message_data = Some message_bytes ->
  exists l,
    struct_pack_I (length message_data) = Some l /\
    message_bytes = marker ++ l ++ message_data /\
    length message_bytes = (7 + 4 + length message_data)%nat.
Proof.
  unfold frame. destruct (struct_pack_I (length message_data)) as [l|] eqn:Hl; [|discriminate].
  intros [= <-]. exists l. split; [reflexivity|]. split; [reflexivity|].
  apply struct_pack_I_spec in Hl as (_ & Hlen & _).
  cbn [length]. rewrite length_app, Hlen. reflexivity.
Qed.

(** [encode] on a frame that fits: the order it walks and the array it
    returns. *)
Lemma encode_ok a message p g message_data message_bytes :
  rect a ->
  Utf8.encode message = Some message_data ->
  frame message_data = Some message_bytes ->
  encodable (default [] p) ->
  (length message_bytes * 8 <= width a * height a * 3)%nat ->
  exists cs g' stego,
    pixel_order (width a) (height a) p g = (Ok cs, g') /\
    grid_order (width a) (height a) cs /\
    encode a message p g = (Ok stego, g') /\
    height stego = height a /\ width stego = width a /\ rect stego /\
    (forall k c, cs !! k = Some c ->
       getc stego c = embed_pixel (message_bits message_bytes) (3 * k) <$> getc a c).
Proof.
  intros Ha Hm Hf Hp Hcap.
  destruct (pixel_order_grid (width a) (height a) p g Hp) as (cs & g' & Hcs & Hgrid).
  destruct (embed_loop_spec cs (message_bits message_bytes) 0 a Ha)
    as (stego & Hloop & Hh & Hw & Hr & Hvis & _).
  { apply Hgrid. } { apply grid_order_in_shape. exact Hgrid. }
  exists cs, g', stego. split; [exact Hcs|]. split; [exact Hgrid|].
  split; [|auto].
  unfold encode, bind, lift_option. rewrite Hm. unfold ret at 1. cbv beta iota.
  rewrite Hf. unfold ret at 1. cbv beta iota.
  destruct (Nat.ltb_spec (width a * height a * 3) (length message_bytes * 8)); [lia|].
  rewrite Hcs. unfold lift_result. rewrite Hloop. reflexivity.
Qed.

End CodecFacts.

(** ** Reading back what [encode] wrote *)

(** The bits met along the order in the stego array start with the bits
    that were embedded. *)
Lemma stego_stream a stego cs bits :
  rect a -> uint8 a -> rect stego ->
  height stego = height a -> width stego = width a ->
  Forall (in_shape a) cs ->
  (forall k c, cs !! k = Some c -> getc stego c = embed_pixel bits (3 * k) <$> getc a c) ->
  forall j bit, bits !! j = Some bit -> (j < 3 * length cs)%nat ->
    lsb_stream stego cs !! j = Some (Z.land bit 1).
Proof.
  intros Ha Hu Hs Hh Hw Hin Hvis j bit Hbit Hj.
  pose proof (Nat.div_mod_eq j 3) as Hdm.
  pose proof (Nat.mod_upper_bound j 3) as Hm.
  set (k := (j / 3)%nat) in *. set (m := (j mod 3)%nat) in *.
  destruct (lookup_lt_is_Some_2 cs k) as [c Hc]; [lia|].
  pose proof (proj1 (Forall_lookup _ cs) Hin k c Hc) as [Hx Hy].
  destruct (getitem_in_shape a (snd c) (fst c) Ha Hx Hy) as [[[r g] b] Hp].
  pose proof (uint8_getitem a _ _ _ Hu Hp) as (Hr & Hg & Hb). cbn [fst snd] in Hr, Hg, Hb.
  pose proof (Hvis k c Hc) as Hstego. unfold getc at 2 in Hstego. rewrite Hp in Hstego.
  cbn [fmap option_fmap option_map] in Hstego.
  assert (Hin' : Forall (in_shape stego) cs).
  { eapply Forall_impl; [exact Hin|]. unfold in_shape. intros ?. rewrite Hh, Hw. auto. }
  rewrite Hdm. rewrite (lsb_stream_lookup stego cs k m c _ Hs Hin' Hc Hstego) by lia.
  unfold embed_pixel, lsb3, _extract_bit, embed_value.
  assert (m = 0 \/ m = 1 \/ m = 2)%nat as [-> | [-> | ->]] by lia; cbn [lookup list_lookup].
  - replace (3 * k)%nat with j by lia. rewrite Hbit. f_equal. apply embed_bit_lsb; auto.
  - replace (3 * k + 1)%nat with j by lia. rewrite Hbit. f_equal. apply embed_bit_lsb; auto.
  - replace (3 * k + 2)%nat with j by lia. rewrite Hbit. f_equal. apply embed_bit_lsb; auto.
Qed.

Lemma lsb_stream_take_lookup a cs n j :
  rect a -> Forall (in_shape a) cs -> (n <= length cs)%nat -> (j < 3 * n)%nat ->
  lsb_stream a (take n cs) !! j = lsb_stream a cs !! j.
Proof.
  intros Ha Hin Hn Hj. rewrite <- (take_drop n cs) at 2.
  rewrite lsb_stream_app, lookup_app_l; [reflexivity|].
  rewrite lsb_stream_length by (auto using Forall_take).
  rewrite length_take_le by lia. exact Hj.
Qed.

(** The bytes rebuilt from a long enough prefix of the stream are those of
    the frame. *)
Lemma frame_bytes_of_stream a cs fb n k :
  rect a -> Forall (in_shape a) cs -> Forall is_byte fb ->
  (forall j bit, message_bits fb !! j = Some bit -> lsb_stream a cs !! j = Some bit) ->
  (n <= length cs)%nat -> (k <= length fb)%nat -> (8 * k <= 3 * n)%nat ->
  bits_to_bytes k (lsb_stream a (take n cs)) = take k fb.
Proof.
  intros Ha Hin Hfb Hstream Hn Hk Hkn.
  apply bits_to_bytes_prefix; auto.
  - rewrite lsb_stream_length by (auto using Forall_take).
    rewrite length_take_le by lia. exact Hkn.
  - intros j bit Hj Hbit. rewrite lsb_stream_take_lookup by (auto; lia).
    apply Hstream. exact Hbit.
Qed.

Section DecodeFacts.

Context {R : Random}.

(** An attempt on an array whose stream, along the order of the
    password, starts with the bits of a frame: the payload is returned. *)
Lemma decode_attempt_frame a p g cs g1 message_data l :
  rect a ->
  pixel_order (width a) (height a) p g = (Ok cs, g1) ->
  grid_order (width a) (height a) cs ->
  struct_pack_I (length message_data) = Some l ->
  Forall is_byte message_data ->
  (0 < length message_data)%nat ->
  (length (marker ++ l ++ message_data) * 8 <= width a * height a * 3)%nat ->
  (forall j bit, message_bits (marker ++ l ++ message_data) !! j = Some bit ->
     lsb_stream a cs !! j = Some bit) ->
  _decode_image a (width a) (height a) p g = (Ok (Some (payload_text message_data)), g1).
Proof.
  intros Ha Hcs Hgrid Hl Hmd Hpos Hcap Hstream.
  set (fb := marker ++ l ++ message_data) in *.
  pose proof (struct_pack_I_spec _ _ Hl) as (Hlt & Hll & Hlb & Hunpack).
  assert (Hfbl : length fb = (11 + length message_data)%nat)
    by (unfold fb; rewrite !length_app, Hll; reflexivity).
  assert (Hfbb : Forall is_byte fb).
  { unfold fb. apply Forall_app. split; [|apply Forall_app; auto].
    repeat constructor; unfold is_byte; lia. }
  pose proof (grid_order_in_shape a cs Hgrid) as Hin.
  destruct Hgrid as (Hlen & _ & _).
  unfold _decode_image, try_except, decode_body, bind. rewrite Hcs.
  change header_size with 11%nat. change marker_size with 7%nat.
  unfold lift_result at 1.
  destruct (extract_loop_spec cs (11 * 8) a [] Ha Hin) as (n & Hn & -> & Hstop).
  cbn [app length] in Hstop |- *.
  assert (Hn88 : (8 * 11 <= 3 * n)%nat) by lia.
  rewrite (frame_bytes_of_stream a cs fb n 11) by (auto; lia).
  assert (Htake11 : take 11 fb = marker ++ l).
  { unfold fb. rewrite app_assoc. apply take_app_length'.
    rewrite length_app, Hll. reflexivity. }
  rewrite Htake11.
  assert (Hlen11 : length (marker ++ l) = 11%nat) by (rewrite length_app, Hll; reflexivity).
  rewrite Hlen11. cbn [Nat.leb andb].
  rewrite (take_app_length' marker l 7) by reflexivity.
  rewrite bool_decide_eq_true_2 by reflexivity.
  rewrite (drop_app_length' marker l 7) by reflexivity.
  rewrite (take_ge l 4) by lia. rewrite Hunpack.
  unfold lift_option, ret at 1. cbv beta iota.
  destruct (Z.leb_spec (Z.of_nat (length message_data)) 0); [lia|].
  destruct (Z.ltb_spec (Z.of_nat (width a * height a)) (Z.of_nat (length message_data))); [lia|].
  cbn [orb]. rewrite Nat2Z.id.
  assert (Hlsl : length (lsb_stream a (take n cs)) = (3 * n)%nat).
  { rewrite lsb_stream_length by (auto using Forall_take).
    rewrite length_take_le by lia. reflexivity. }
  (* the second scan *)
  assert (Hscan : exists N, (N <= length cs)%nat /\
            ((11 + length message_data) * 8 <= 3 * N)%nat /\
            (if (length (lsb_stream a (take n cs)) <? (11 + length message_data) * 8)%nat
             then lift_result
                    (extract_loop (drop (length (lsb_stream a (take n cs)) / 3) cs)
                       ((11 + length message_data) * 8) a (lsb_stream a (take n cs)))
             else ret (lsb_stream a (take n cs))) g1
            = (Ok (lsb_stream a (take N cs)), g1)).
  { rewrite Hlsl. destruct (Nat.ltb_spec (3 * n) ((11 + length message_data) * 8)).
    - replace (3 * n / 3)%nat with n by (apply Nat.div_unique_exact; lia).
      destruct (extract_loop_spec (drop n cs) ((11 + length message_data) * 8) a
                  (lsb_stream a (take n cs)) Ha) as (n' & Hn' & Hloop & Hstop').
      { apply Forall_drop. exact Hin. }
      rewrite length_drop in Hn', Hstop'. rewrite Hlsl in Hstop'.
      exists (n + n')%nat. split; [lia|]. split; [lia|].
      unfold lift_result. rewrite Hloop, <- lsb_stream_app, take_take_drop. reflexivity.
    - exists n. split; [lia|]. split; [lia|]. reflexivity. }
  destruct Hscan as (N & HN & HN8 & ->).
  rewrite (frame_bytes_of_stream a cs fb N (11 + length message_data)) by (auto; lia).
  rewrite (take_ge fb) by lia. rewrite Hfbl.
  rewrite Nat.leb_refl. unfold ret.
  replace (drop 11 fb) with message_data
    by (unfold fb; rewrite app_assoc; symmetry; apply drop_app_length'; auto).
  rewrite take_ge by lia. reflexivity.
Qed.

End DecodeFacts.

(** ** Round trip *)

Section RoundTrip.

Context {R : Random}.

Lemma pixel_order_same w h p g cs g' g2 :
  pixel_order w h p g = (Ok cs, g') ->
  exists g2', pixel_order w h p g2 = (Ok cs, g2').
Proof.
  intros Hcs. pose proof (pixel_order_state w h p g2 g) as Hst.
  rewrite Hcs in Hst. destruct (pixel_order w h p g2) as [r g2'].
  cbn in Hst. subst r. eauto.
Qed.

(** What [encode] returns is read back by one attempt with the same
    password, whatever the state of the global generator. *)
Lemma decode_attempt_encode a message p g message_data message_bytes :
  rect a -> uint8 a ->
  Utf8.encode message = Some message_data ->
  frame message_data = Some message_bytes ->
  message <> [] ->
  encodable (default [] p) ->
  (length message_bytes * 8 <= width a * height a * 3)%nat ->
  exists stego g',
    encode a message p g = (Ok stego, g') /\
    height stego = height a /\ width stego = width a /\
    forall g2, exists g2',
      _decode_image stego (width stego) (height stego) p g2 = (Ok (Some message), g2').
Proof.
  intros Ha Hu Hm Hf Hne Hp Hcap.
  destruct (encode_ok a message p g _ _ Ha Hm Hf Hp Hcap)
    as (cs & g' & stego & Hcs & Hgrid & Henc & Hh & Hw & Hr & Hvis).
  exists stego, g'. split; [exact Henc|]. split; [exact Hh|]. split; [exact Hw|].
  intros g2. destruct (pixel_order_same _ _ _ _ _ _ g2 Hcs) as [g2' Hcs2].
  exists g2'. rewrite Hh, Hw.
  destruct (frame_spec _ _ Hf) as (l & Hl & Hfb & Hfbl).
  destruct (Utf8Facts.encode_spec _ _ Hm) as (Hmdb & Hmdl & Hdec).
  assert (Hpayload : payload_text message_data = message)
    by (unfold payload_text; rewrite Hdec; reflexivity).
  rewrite <- Hpayload, <- Hh, <- Hw.
  apply (decode_attempt_frame stego p g2 cs g2' message_data l); auto.
  - rewrite Hh, Hw. exact Hcs2.
  - rewrite Hh, Hw. exact Hgrid.
  - destruct message; [congruence|]. cbn [length] in Hmdl. lia.
  - rewrite <- Hfb, Hh, Hw. exact Hcap.
  - rewrite <- Hfb. intros j bit Hbit.
    rewrite <- (message_bits_01 _ _ _ Hbit).
    apply (stego_stream a stego cs (message_bits message_bytes)); auto.
    + apply grid_order_in_shape. exact Hgrid.
    + apply lookup_lt_Some in Hbit. rewrite message_bits_length in Hbit.
      destruct Hgrid as (Hlen & _). rewrite Hlen. lia.
Qed.

Lemma decode_first_attempt a p g r g' :
  _decode_image a (width a) (height a) p g = (Ok r, g') -> truthy r = true ->
  decode a p g = (Ok r, g').
Proof.
  intros Hatt Htr. unfold decode, bind. rewrite Hatt, Htr. reflexivity.
Qed.

(** C1, amended.  Round trip: a non-empty message whose frame fits the
    image is returned by [decode] from the array [encode] returns, with the
    same password, absent or with a UTF-8 encoding (no lone surrogate),
    whatever the state of the global generator at either call. *)
Theorem roundtrip_nonempty a message p g message_data message_bytes :
  rect a -> uint8 a ->
  Utf8.encode message = Some message_data ->
  frame message_data = Some message_bytes ->
  message <> [] ->
  encodable (default [] p) ->
  (8 * (11 + length message_data) <= 3 * width a * height a)%nat ->
  exists stego g',
    encode a message p g = (Ok stego, g') /\
    forall g2, fst (decode stego p g2) = Ok (Some message).
Proof.
  intros Ha Hu Hm Hf Hne Hp Hcap.
  destruct (frame_spec _ _ Hf) as (l & Hl & Hfb & Hfbl).
  destruct (decode_attempt_encode a message p g _ _ Ha Hu Hm Hf Hne Hp)
    as (stego & g' & Henc & _ & _ & Hdec); [lia|].
  exists stego, g'. split; [exact Henc|]. intros g2.
  destruct (Hdec g2) as [g2' Hatt].
  rewrite (decode_first_attempt _ _ _ _ _ Hatt); [reflexivity|].
  destruct message; [congruence | reflexivity].
Qed.

End RoundTrip.

Lemma carrier_rect : rect carrier.
Proof. repeat constructor. Qed.
Lemma carrier_uint8 : uint8 carrier.
Proof. repeat constructor; cbn; lia. Qed.

(** The round trip on the 6 by 6 image, the message hi and the password pw. *)
Lemma roundtrip_nonempty_witness :
  exists stego g',
    encode carrier [104; 105] (Some [112; 119]) g0 = (Ok stego, g') /\
    forall g2, fst (decode stego (Some [112; 119]) g2) = Ok (Some [104; 105]).
Proof.
  apply (roundtrip_nonempty (R := MT19937_Random) carrier [104; 105] (Some [112; 119]) g0
           [104; 105] (marker ++ [2; 0; 0; 0] ++ [104; 105])).
  - exact carrier_rect.
  - exact carrier_uint8.
  - reflexivity.
  - reflexivity.
  - discriminate.
  - eexists. reflexivity.
  - vm_compute. lia.
Defined.

(** C1 as stated fails on the empty message: its frame fits the 6 by 6
    image, [encode] returns, and [decode] finds the marker, reads the
    length 0 and returns [None] (line 253). *)
Lemma roundtrip_empty_message :
  (8 * (11 + 0) <= 3 * width carrier * height carrier)%nat /\
  exists stego,
    fst (encode carrier [] None g0) = Ok stego /\
    fst (decode stego None g0) = Ok None /\
    fst (decode stego None g0) <> Ok (Some []).
Proof.
  split; [vm_compute; lia|].
  exists (ok_or [] (fst (encode carrier [] None g0))).
  split; [vm_compute; reflexivity|].
  assert (H : fst (decode (ok_or [] (fst (encode carrier [] None g0))) None g0) = Ok None)
    by (vm_compute; reflexivity).
  split; [exact H | rewrite H; discriminate].
Qed.

(** With a password that has no UTF-8 encoding there is no round trip
    either: [encode] raises at line 86. *)
Example encode_password_lone_surrogate :
  fst (encode carrier [104; 105] (Some [0xD800]) g0) = Raise UnicodeEncodeError.
Proof. reflexivity. Qed.

(** ** The capacity check *)

Section Capacity.

Context {R : Random}.

Lemma shuffle_loop_raises i : forall x g e g',
  shuffle_loop i x g = (Raise e, g') -> e = IndexError.
Proof.
  induction i as [|i IH]; intros x g e g'; cbn [shuffle_loop]; [discriminate|].
  destruct (randbelow g (S i + 1)) as [j g1].
  destruct (swap x (S i) j) as [x'|]; [apply IH | congruence].
Qed.

Lemma pixel_order_raises w h p g e g' :
  pixel_order w h p g = (Raise e, g') -> e = UnicodeEncodeError \/ e = IndexError.
Proof.
  unfold pixel_order. destruct (truthy p); [|discriminate].
  unfold bind, lift_option.
  destruct (Utf8.encode (default [] p)) as [b|]; [|unfold raise; intros [= <- _]; auto].
  unfold ret at 1, seed. cbv beta iota.
  destruct (shuffle _ _) as [[pixels|e'] g1] eqn:Hs; [discriminate|].
  intros [= <- _]. right. eapply shuffle_loop_raises. exact Hs.
Qed.

Lemma embed_loop_raises cs : forall bits i a e,
  embed_loop cs bits i a = Raise e -> e = IndexError.
Proof.
  induction cs as [|[x y] cs IH]; intros bits i a e; cbn [embed_loop]; [discriminate|].
  destruct (length bits <=? i)%nat; [discriminate|].
  destruct (getitem a y x) as [[[r g] b]|]; [|congruence].
  destruct (embed_channel bits r i) as [r' i1].
  destruct (embed_channel bits g i1) as [g' i2].
  destruct (embed_channel bits b i2) as [b' i3].
  destruct (setitem a y x (r', g', b')) as [a'|]; [apply IH | congruence].
Qed.


(** The failures that come before the check: a text with a lone surrogate
    has no UTF-8 encoding, and a payload of 2^32 bytes or more does not fit
    the length field of [struct.pack("<I", ...)]. *)
Lemma encode_unencodable a message p g :
  Utf8.encode message = None ->
  encode a message p g = (Raise UnicodeEncodeError, g).
Proof. intros Hm. unfold encode, bind, lift_option. rewrite Hm. reflexivity. Qed.

Lemma encode_length_overflow a message p g message_data :
  Utf8.encode message = Some message_data ->
  2 ^ 32 <= Z.of_nat (length message_data) ->
  encode a message p g = (Raise StructError, g).
Proof.
  intros Hm Hlen. unfold encode, bind, lift_option. rewrite Hm.
  unfold ret at 1. cbv beta iota. unfold frame, struct_pack_I. cbv zeta.
  destruct (Z.ltb_spec (Z.of_nat (length message_data)) (2 ^ 32)); [lia|].
  reflexivity.
Qed.

End Capacity.


(** ** Negative results of [decode] *)

Section DecodeTotal.

Context {R : Random}.

Lemma decode_image_total a w h p g :
  exists r g', _decode_image a w h p g = (Ok r, g').
Proof.
  unfold _decode_image, try_except.
  destruct (decode_body a w h p g) as [[r|e] g']; eauto.
Qed.

Lemma decode_total a p g : exists r g', decode a p g = (Ok r, g').
Proof.
  unfold decode, bind.
  destruct (decode_image_total a (width a) (height a) p g) as (r1 & g1 & ->).
  destruct (truthy r1); [unfold ret; eauto|].
  destruct (truthy p); [|unfold ret; eauto].
  destruct (decode_image_total a (width a) (height a) None g1) as (r2 & g2 & ->).
  destruct (truthy r2); unfold ret; eauto.
Qed.

Lemma shuffle_loop_length i : forall x g x' g',
  shuffle_loop i x g = (Ok x', g') -> length x' = length x.
Proof.
  induction i as [|i IH]; intros x g x' g'; cbn [shuffle_loop].
  - intros [= -> _]. reflexivity.
  - destruct (randbelow g (S i + 1)) as [j g1].
    destruct (swap x (S i) j) as [x1|] eqn:Hswap; [|discriminate].
    intros Hloop. rewrite (IH _ _ _ _ Hloop).
    unfold swap in Hswap. destruct (x !! S i), (x !! j); try discriminate.
    injection Hswap as <-. rewrite !length_insert. reflexivity.
Qed.

Lemma raster_length w h : length (raster w h) = (w * h)%nat.
Proof. apply raster_grid_order. Qed.

Lemma pixel_order_length w h p g cs g' :
  pixel_order w h p g = (Ok cs, g') -> length cs = (w * h)%nat.
Proof.
  unfold pixel_order. destruct (truthy p).
  - unfold bind, lift_option. destruct (Utf8.encode (default [] p)); [|discriminate].
    unfold ret at 1, seed. cbv beta iota.
    destruct (shuffle _ _) as [[pixels|e] g1] eqn:Hs; [|discriminate].
    intros [= <- _]. rewrite length_map.
    unfold shuffle in Hs. rewrite (shuffle_loop_length _ _ _ _ _ Hs).
    apply length_seq.
  - intros [= <- _]. apply raster_length.
Qed.

(** The loop adds three bits for each pixel it reads. *)
Lemma extract_loop_length cs : forall needed a ext ext',
  extract_loop cs needed a ext = Ok ext' ->
  exists n, (n <= length cs)%nat /\ length ext' = (length ext + 3 * n)%nat.
Proof.
  induction cs as [|[x y] cs IH]; intros needed a ext ext'; cbn [extract_loop].
  - intros [= <-]. exists 0%nat. split; [reflexivity | lia].
  - destruct (needed <=? length ext)%nat.
    { intros [= <-]. exists 0%nat. cbn. lia. }
    destruct (getitem a y x) as [[[r g] b]|]; [|discriminate].
    intros Hloop. destruct (IH _ _ _ _ Hloop) as (n & Hn & Hlen).
    rewrite length_app in Hlen. cbn [length] in *.
    exists (S n). split; lia.
Qed.

(** The negative results of an attempt, in terms of the header it
    recovers. *)
Lemma decode_attempt_negative a w h p g r g' :
  _decode_image a w h p g = (Ok r, g') ->
  (forall e g1, header_scan a w h p g = (Raise e, g1) -> r = None) /\
  (forall hb g1, header_scan a w h p g = (Ok hb, g1) ->
     (take 7 hb <> marker -> r = None) /\
     (forall L, struct_unpack_I (take 4 (drop 7 hb)) = Some L ->
        (L <= 0 \/ Z.of_nat (w * h) < L -> r = None) /\
        ((3 * (w * h) < 8 * (11 + Z.to_nat L))%nat -> r = None))).
Proof.
  unfold _decode_image, try_except, decode_body, header_scan, bind.
  change header_size with 11%nat. change marker_size with 7%nat.
  destruct (pixel_order w h p g) as [[cs|e0] g1] eqn:Hcs;
    [|intros [= <- _]; split; [auto | discriminate]].
  unfold lift_result at 1 3.
  destruct (extract_loop cs (11 * 8) a []) as [ext|e0] eqn:Hext;
    [|intros [= <- _]; split; [auto | discriminate]].
  unfold ret at 4 5. intros Hr. split; [discriminate|].
  intros hb g2 [= <- <-].
  set (hb := bits_to_bytes 11 ext) in *.
  destruct ((7 <=? length hb)%nat && bool_decide (take 7 hb = marker)) eqn:Hmark;
    [|injection Hr as <- _; split; [auto|]; intros L _; auto].
  apply andb_prop in Hmark as [_ Hmark]. apply bool_decide_eq_true_1 in Hmark.
  split; [congruence|]. intros L HL.
  rewrite HL in Hr. unfold lift_option, ret at 1 in Hr. cbv beta iota in Hr.
  destruct ((L <=? 0) || (Z.of_nat (w * h) <? L)) eqn:Hvalid;
    [injection Hr as <- _; auto|].
  apply orb_false_elim in Hvalid as [HL0 HLwh].
  apply Z.leb_gt in HL0. apply Z.ltb_ge in HLwh.
  split; [lia|]. intros Hfew.
  destruct (extract_loop_length _ _ _ _ _ Hext) as (n & Hn & Hlen).
  rewrite (pixel_order_length _ _ _ _ _ _ Hcs) in Hn. cbn [length Nat.add] in Hlen.
  set (total := (11 + Z.to_nat L)%nat) in *.
  assert (Hshort : forall ext2,
            (length ext2 <= 3 * (w * h))%nat ->
            (total <=? length (bits_to_bytes total ext2))%nat = false).
  { intros ext2 Hl2. rewrite bits_to_bytes_length.
    pose proof (Nat.div_mod_eq (length ext2) 8).
    pose proof (Nat.mod_upper_bound (length ext2) 8).
    apply Nat.leb_gt. lia. }
  destruct (length ext <? total * 8)%nat.
  - unfold lift_result in Hr.
    destruct (extract_loop (drop (length ext / 3) cs) (total * 8) a ext) as [ext2|e0] eqn:Hext2;
      [|injection Hr as <- _; reflexivity].
    destruct (extract_loop_length _ _ _ _ _ Hext2) as (n' & Hn' & Hlen').
    rewrite length_drop, (pixel_order_length _ _ _ _ _ _ Hcs), Hlen in Hn'.
    replace (3 * n / 3)%nat with n in Hn' by (apply Nat.div_unique_exact; lia).
    rewrite Hshort in Hr by lia. injection Hr as <- _. reflexivity.
  - unfold ret at 1 in Hr. rewrite Hshort in Hr by lia.
    injection Hr as <- _. reflexivity.
Qed.

End DecodeTotal.

(** ** The attempts of [decode] *)

Section DecodePolicy.

Context {R : Random}.

(** C3.  [decode] returns for every array and password; an attempt whose
    header scan raises, whose first seven bytes are not the marker, whose
    length field is zero or above width * height, or that cannot recover
    the bits of the declared frame, returns [None]. *)
Theorem decode_total_negative (a : ndarray) (p : option str) (g : rng) :
  (exists r g', decode a p g = (Ok r, g')) /\
  forall w h,
    exists r g',
      _decode_image a w h p g = (Ok r, g') /\
      (forall e g1, header_scan a w h p g = (Raise e, g1) -> r = None) /\
      (forall hb g1, header_scan a w h p g = (Ok hb, g1) ->
         (take 7 hb <> marker -> r = None) /\
         (forall L, struct_unpack_I (take 4 (drop 7 hb)) = Some L ->
            (L <= 0 \/ Z.of_nat (w * h) < L -> r = None) /\
            ((3 * (w * h) < 8 * (11 + Z.to_nat L))%nat -> r = None))).
Proof.
  split; [apply decode_total|]. intros w h.
  destruct (decode_image_total a w h p g) as (r & g' & Hatt).
  exists r, g'. split; [exact Hatt|].
  exact (decode_attempt_negative a w h p g r g' Hatt).
Qed.

Lemma decode_second_attempt a q g r1 g1 :
  _decode_image a (width a) (height a) q g = (Ok r1, g1) ->
  truthy r1 = false -> truthy q = true ->
  decode a q g = second_attempt a g1.
Proof.
  intros Hatt Hr Hq. unfold decode, second_attempt, bind.
  rewrite Hatt, Hr, Hq.
  destruct (decode_image_total a (width a) (height a) None g1) as (r2 & g2 & ->).
  destruct (truthy r2); reflexivity.
Qed.

Lemma decode_no_password a q g r1 g1 :
  _decode_image a (width a) (height a) q g = (Ok r1, g1) ->
  truthy r1 = false -> truthy q = false ->
  decode a q g = (Ok None, g1).
Proof.
  intros Hatt Hr Hq. unfold decode, bind. rewrite Hatt, Hr, Hq. reflexivity.
Qed.

Lemma decode_image_falsy_password a w h q g :
  truthy q = false -> _decode_image a w h q g = _decode_image a w h None g.
Proof.
  intros Hq. unfold _decode_image, try_except, decode_body, bind.
  rewrite !pixel_order_no_password by auto. reflexivity.
Qed.

(** C4, amended.  Outer retry: when the attempt with a supplied password returns no
    message, [decode] is the one attempt without password; an image
    encoded without password and holding a non-empty message is decoded
    whenever the attempt with the supplied password returns no message. *)
Theorem outer_retry a message g message_data message_bytes :
  rect a -> uint8 a ->
  Utf8.encode message = Some message_data ->
  frame message_data = Some message_bytes ->
  message <> [] ->
  (8 * (11 + length message_data) <= 3 * width a * height a)%nat ->
  (forall (b : ndarray) q g0 r1 g1,
     _decode_image b (width b) (height b) q g0 = (Ok r1, g1) ->
     truthy r1 = false -> truthy q = true ->
     decode b q g0 = second_attempt b g1) /\
  exists stego,
    encode a message None g = (Ok stego, g) /\
    forall q g0,
      (truthy q = true ->
       exists r1, fst (_decode_image stego (width stego) (height stego) q g0) = Ok r1 /\
                  truthy r1 = false) ->
      fst (decode stego q g0) = Ok (Some message).
Proof.
  intros Ha Hu Hm Hf Hne Hcap. split; [apply decode_second_attempt|].
  destruct (frame_spec _ _ Hf) as (l & Hl & Hfb & Hfbl).
  destruct (decode_attempt_encode a message None g _ _ Ha Hu Hm Hf Hne)
    as (stego & g' & Henc & _ & _ & Hdec); [eexists; reflexivity | lia |].
  assert (g' = g) as ->.
  { destruct (encode_ok a message None g _ _ Ha Hm Hf) as (cs & g1 & s1 & Hcs & _ & Henc1 & _);
      [eexists; reflexivity | lia |].
    rewrite pixel_order_no_password in Hcs by reflexivity. congruence. }
  exists stego. split; [exact Henc|]. intros q g0 Hfirst.
  assert (Htm : truthy (Some message) = true) by (destruct message; [congruence | reflexivity]).
  destruct (truthy q) eqn:Hq.
  - destruct Hfirst as (r1 & Hr1 & Hfalsy); [reflexivity|].
    destruct (_decode_image stego (width stego) (height stego) q g0) as [r g1] eqn:Hatt.
    cbn [fst] in Hr1. subst r.
    rewrite (decode_second_attempt _ _ _ _ _ Hatt Hfalsy Hq).
    unfold second_attempt. destruct (Hdec g1) as [g2 ->]. rewrite Htm. reflexivity.
  - destruct (Hdec g0) as [g2 Hatt].
    rewrite <- (decode_image_falsy_password _ _ _ q) in Hatt by exact Hq.
    rewrite (decode_first_attempt _ _ _ _ _ Hatt Htm). reflexivity.
Qed.

End DecodePolicy.

Lemma embed_value_effect bits i v :
  is_byte v -> (forall bit, bits !! i = Some bit -> Z.land bit 1 = bit) ->
  channel_effect bits i v (embed_value bits i v).
Proof.
  intros Hv H01. unfold channel_effect, embed_value.
  destruct (bits !! i) as [bit|]; [|reflexivity].
  split; [|apply embed_bit_high; exact Hv].
  rewrite embed_bit_lsb by exact Hv. auto.
Qed.

Lemma bit_of_byte b j :
  0 <= j -> Z.land (Z.shiftr b j) 1 = Z.b2z (Z.testbit b j).
Proof.
  intros Hj. change 1 with (Z.ones 1). rewrite Z.land_ones by lia.
  change (2 ^ 1) with 2. rewrite <- Z.bit0_mod, Z.shiftr_spec by lia.
  reflexivity.
Qed.

(** ** The pixel order, the frame and the effect of [encode] *)

Section OrderAndFrame.

Context {R : Random}.

(** C5.  Determinism: the sequence does not depend on the state of the global
    generator; with a password it is the order of the seed read from the
    first four bytes of the SHA-256 digest of the password's UTF-8 bytes. *)
Theorem pixel_order_deterministic (w h : nat) (p : option str) (g1 g2 : rng) :
  fst (pixel_order w h p g1) = fst (pixel_order w h p g2) /\
  forall b, truthy p = true -> Utf8.encode (default [] p) = Some b ->
    let digest := Sha256.digest b in
    let s := int_from_bytes_big (take 4 digest) in
    length digest = 32%nat /\ 0 <= s < 2 ^ 32 /\
    pixel_order w h p g1 = shuffled_order w h s.
Proof.
  split; [apply pixel_order_state|]. intros b Hp Hb digest s.
  destruct (Sha256Facts.digest_spec b) as [Hlen Hbytes]. fold digest in Hlen, Hbytes.
  split; [exact Hlen|]. split.
  - pose proof (int_from_bytes_big_range (take 4 digest)) as Hr.
    rewrite length_take_le in Hr by lia. apply Hr. apply Forall_take. exact Hbytes.
  - apply pixel_order_password; auto.
Qed.

(** C6, amended.  Permutation invariant: for a password that is absent or
    has a UTF-8 encoding, the generated sequence has width * height
    coordinates, none twice, and they are the coordinates of the grid. *)
Theorem pixel_order_bijection (w h : nat) (p : option str) (g : rng) :
  (0 < w)%nat -> (0 < h)%nat -> encodable (default [] p) ->
  exists cs g',
    pixel_order w h p g = (Ok cs, g') /\
    length cs = (w * h)%nat /\ NoDup cs /\
    (forall x y, (x, y) ∈ cs <-> (x < w)%nat /\ (y < h)%nat) /\
    (forall x y, (x < w)%nat -> (y < h)%nat -> exists! k, cs !! k = Some (x, y)).
Proof.
  intros _ _ Hp. destruct (pixel_order_grid w h p g Hp) as (cs & g' & Hcs & Hlen & Hnd & Hin).
  exists cs, g'. split; [exact Hcs|]. split; [exact Hlen|]. split; [exact Hnd|].
  split; [exact Hin|]. intros x y Hx Hy.
  pose proof (proj2 (Hin x y) (conj Hx Hy)) as Hmem.
  apply list_elem_of_lookup_1 in Hmem as [k Hk].
  exists k. split; [exact Hk|]. intros k' Hk'.
  exact (NoDup_lookup cs k k' (x, y) Hnd Hk Hk').
Qed.

(** C7.  Coordinate construction: without password the coordinate (x, y) is at
    position y * width + x; with a password the sequence is the image
    of the shuffled indices under i -> (i mod width, i div width). *)
Theorem pixel_order_coordinates (w h : nat) (p : option str) (g : rng) :
  (truthy p = false ->
     exists cs, pixel_order w h p g = (Ok cs, g) /\
       length cs = (w * h)%nat /\
       forall x y, (x < w)%nat -> (y < h)%nat -> cs !! (y * w + x)%nat = Some (x, y)) /\
  (forall b, truthy p = true -> Utf8.encode (default [] p) = Some b ->
     exists pixels g',
       shuffle (seq 0 (w * h)) (random_seed (password_seed b)) = (Ok pixels, g') /\
       pixels ≡ₚ seq 0 (w * h) /\
       pixel_order w h p g = (Ok (map (fun i => (i mod w, i / w)%nat) pixels), g')).
Proof.
  split.
  - intros Hp. exists (raster w h). split; [apply pixel_order_no_password; exact Hp|].
    split; [apply raster_length|]. apply raster_lookup.
  - intros b Hp Hb.
    destruct (shuffled_order_spec w h (password_seed b)) as (pixels & g' & Hs & Hperm & Hord).
    exists pixels, g'. split; [exact Hs|]. split; [exact Hperm|].
    rewrite (pixel_order_password w h p b g Hp Hb). exact Hord.
Qed.

(** C10.  An empty password is no password: [encode] and [decode] return
    what they return without password, the order is the raster order, and
    [decode] makes the one attempt without password. *)
Theorem empty_password (a : ndarray) (message : str) (g : rng) :
  encode a message (Some []) g = encode a message None g /\
  pixel_order (width a) (height a) (Some []) g = (Ok (raster (width a) (height a)), g) /\
  decode a (Some []) g = decode a None g /\
  decode a (Some []) g =
    (let (result, g') := _decode_image a (width a) (height a) None g in
     match result with
     | Ok r => (Ok (if truthy r then r else None), g')
     | Raise e => (Raise e, g')
     end).
Proof.
  split; [reflexivity|]. split; [reflexivity|]. split; [reflexivity|].
  unfold decode, bind. change (truthy (Some [])) with false.
  change (_decode_image a (width a) (height a) (Some []) g)
    with (_decode_image a (width a) (height a) None g).
  destruct (decode_image_total a (width a) (height a) None g) as (r & g' & ->).
  destruct (truthy r); reflexivity.
Qed.

(** C8.  Frame wire format: marker, length on four bytes least significant
    first, payload; bit [j] of byte [k] is bit [8k + j] of the stream,
    and the stream is what the stego image holds along the pixel order. *)
Theorem frame_wire_format a message p g message_data message_bytes :
  rect a -> uint8 a ->
  Utf8.encode message = Some message_data ->
  frame message_data = Some message_bytes ->
  encodable (default [] p) ->
  (8 * (11 + length message_data) <= 3 * width a * height a)%nat ->
  let n := Z.of_nat (length message_data) in
  let bits := message_bits message_bytes in
  message_bytes =
    [83; 83; 83; 84; 69; 71; 79]
    ++ [n mod 256; n / 256 mod 256; n / 65536 mod 256; n / 16777216 mod 256]
    ++ message_data /\
  length bits = (8 * length message_bytes)%nat /\
  (forall k j b, message_bytes !! k = Some b -> (j < 8)%nat ->
     bits !! (8 * k + j)%nat = Some (Z.b2z (Z.testbit b (Z.of_nat j)))) /\
  exists cs g' stego,
    pixel_order (width a) (height a) p g = (Ok cs, g') /\
    encode a message p g = (Ok stego, g') /\
    forall i bit, bits !! i = Some bit -> lsb_stream stego cs !! i = Some bit.
Proof.
  intros Ha Hu Hm Hf Hp Hcap n bits.
  destruct (frame_spec _ _ Hf) as (l & Hl & Hfb & Hfbl).
  split; [|split; [apply message_bits_length|split]].
  - rewrite Hfb. f_equal. f_equal.
    unfold struct_pack_I in Hl. cbv zeta in Hl. fold n in Hl.
    destruct (n <? 2 ^ 32); [|discriminate]. injection Hl as <-.
    rewrite !land_byte, !shiftr_div by lia. reflexivity.
  - intros k j b Hk Hj. unfold bits. rewrite (message_bits_lookup _ _ _ _ Hk Hj).
    rewrite bit_of_byte by lia. reflexivity.
  - destruct (encode_ok a message p g _ _ Ha Hm Hf Hp)
      as (cs & g' & stego & Hcs & Hgrid & Henc & Hh & Hw & Hr & Hvis); [lia|].
    exists cs, g', stego. split; [exact Hcs|]. split; [exact Henc|].
    intros i bit Hbit. rewrite <- (message_bits_01 _ _ _ Hbit).
    apply (stego_stream a stego cs bits); auto.
    + apply grid_order_in_shape. exact Hgrid.
    + apply lookup_lt_Some in Hbit. unfold bits in Hbit.
      rewrite message_bits_length in Hbit.
      destruct Hgrid as (Hlen & _). rewrite Hlen. lia.
Qed.

(** C9.  Frame/effect of [encode]: the [k]-th visited pixel meets bits 3k,
    3k + 1, 3k + 2 in its red, green and blue channels; a channel that
    meets a bit keeps its seven high bits, a channel that meets none is
    unchanged; the order visits every pixel once. *)
Theorem encode_frame_effect a message p g message_data message_bytes :
  rect a -> uint8 a ->
  Utf8.encode message = Some message_data ->
  frame message_data = Some message_bytes ->
  encodable (default [] p) ->
  (8 * (11 + length message_data) <= 3 * width a * height a)%nat ->
  let bits := message_bits message_bytes in
  exists cs g' stego,
    pixel_order (width a) (height a) p g = (Ok cs, g') /\
    encode a message p g = (Ok stego, g') /\
    height stego = height a /\ width stego = width a /\
    grid_order (width a) (height a) cs /\
    forall k c, cs !! k = Some c ->
      exists r gr b r' gr' b',
        getc a c = Some (r, gr, b) /\ getc stego c = Some (r', gr', b') /\
        channel_effect bits (3 * k) r r' /\
        channel_effect bits (3 * k + 1) gr gr' /\
        channel_effect bits (3 * k + 2) b b'.
Proof.
  intros Ha Hu Hm Hf Hp Hcap bits.
  destruct (frame_spec _ _ Hf) as (l & Hl & Hfb & Hfbl).
  destruct (encode_ok a message p g _ _ Ha Hm Hf Hp)
    as (cs & g' & stego & Hcs & Hgrid & Henc & Hh & Hw & Hr & Hvis); [lia|].
  exists cs, g', stego. repeat (split; [assumption|]).
  intros k c Hk.
  pose proof (proj1 (Forall_lookup _ cs) (grid_order_in_shape a cs Hgrid) k c Hk) as [Hx Hy].
  destruct (getitem_in_shape a (snd c) (fst c) Ha Hx Hy) as [[[r gr] b] Hpix].
  pose proof (uint8_getitem a _ _ _ Hu Hpix) as (Hrb & Hgb & Hbb). cbn [fst snd] in Hrb, Hgb, Hbb.
  pose proof (Hvis k c Hk) as Hst. unfold getc at 2 in Hst. rewrite Hpix in Hst.
  exists r, gr, b, (embed_value bits (3 * k) r), (embed_value bits (3 * k + 1) gr),
    (embed_value bits (3 * k + 2) b).
  split; [exact Hpix|]. split; [exact Hst|].
  repeat split; apply embed_value_effect; auto; intros bit; apply message_bits_01.
Qed.

End OrderAndFrame.

(** C4 as stated fails in two ways.  On a carrier that already holds a
    message hidden with the password r, a message encoded without password
    leaves that message where the order of r looks: the first attempt of
    [decode] with r succeeds and returns X, not Y.  And the empty message
    is not returned, with any password. *)
Lemma outer_retry_counterexample :
  (exists stego,
     fst (encode carrier_r [89] None g0) = Ok stego /\
     fst (decode stego (Some [114]) g0) = Ok (Some [88]) /\
     fst (decode stego (Some [114]) g0) <> Ok (Some [89])) /\
  (exists stego,
     fst (encode carrier [] None g0) = Ok stego /\
     fst (decode stego (Some [114]) g0) = Ok None /\
     fst (decode stego (Some [114]) g0) <> Ok (Some [])).
Proof.
  split.
  - exists (ok_or [] (fst (encode carrier_r [89] None g0))).
    split; [vm_compute; reflexivity|].
    assert (H : fst (decode (ok_or [] (fst (encode carrier_r [89] None g0)))
                       (Some [114]) g0) = Ok (Some [88]))
      by (vm_compute; reflexivity).
    split; [exact H | rewrite H; discriminate].
  - exists (ok_or [] (fst (encode carrier [] None g0))).
    split; [vm_compute; reflexivity|].
    assert (H : fst (decode (ok_or [] (fst (encode carrier [] None g0)))
                       (Some [114]) g0) = Ok None)
      by (vm_compute; reflexivity).
    split; [exact H | rewrite H; discriminate].
Qed.

(** The retry on the 6 by 6 image and the message hi. *)
Lemma outer_retry_witness :
  (forall (b : ndarray) q g r1 g1,
     _decode_image b (width b) (height b) q g = (Ok r1, g1) ->
     truthy r1 = false -> truthy q = true ->
     decode b q g = second_attempt b g1) /\
  exists stego,
    encode carrier [104; 105] None g0 = (Ok stego, g0) /\
    forall q g,
      (truthy q = true ->
       exists r1, fst (_decode_image stego (width stego) (height stego) q g) = Ok r1 /\
                  truthy r1 = false) ->
      fst (decode stego q g) = Ok (Some [104; 105]).
Proof.
  apply (outer_retry (R := MT19937_Random) carrier [104; 105] g0
           [104; 105] (marker ++ [2; 0; 0; 0] ++ [104; 105])).
  - exact carrier_rect.
  - exact carrier_uint8.
  - reflexivity.
  - reflexivity.
  - discriminate.
  - vm_compute. lia.
Defined.

(** The order of the password pw on a grid of 3 by 2. *)
Lemma pixel_order_bijection_witness :
  exists cs g',
    pixel_order 3 2 (Some [112; 119]) g0 = (Ok cs, g') /\
    length cs = (3 * 2)%nat /\ NoDup cs /\
    (forall x y, (x, y) ∈ cs <-> (x < 3)%nat /\ (y < 2)%nat) /\
    (forall x y, (x < 3)%nat -> (y < 2)%nat -> exists! k, cs !! k = Some (x, y)).
Proof.
  apply (pixel_order_bijection (R := MT19937_Random) 3 2 (Some [112; 119]) g0).
  - lia.
  - lia.
  - eexists. reflexivity.
Defined.

(** C6 as stated fails on a password that is a lone surrogate: line 86/207
    raises [UnicodeEncodeError] before the generator is seeded, and no
    sequence is generated for the grid of 3 by 2. *)
Lemma pixel_order_lone_surrogate :
  (0 < 3)%nat /\ (0 < 2)%nat /\
  pixel_order 3 2 (Some [0xD800]) g0 = (Raise UnicodeEncodeError, g0) /\
  ~ exists cs g', pixel_order 3 2 (Some [0xD800]) g0 = (Ok cs, g').
Proof.
  assert (H : pixel_order 3 2 (Some [0xD800]) g0 = (Raise UnicodeEncodeError, g0))
    by reflexivity.
  split; [lia|]. split; [lia|]. split; [exact H|].
  intros (cs & g' & Hcs). rewrite H in Hcs. discriminate.
Qed.

(** The frame of the message hi in the 6 by 6 image, password pw. *)
Lemma frame_wire_format_witness :
  let message_bytes := marker ++ [2; 0; 0; 0] ++ [104; 105] in
  let n := Z.of_nat (length [104; 105]) in
  let bits := message_bits message_bytes in
  message_bytes =
    [83; 83; 83; 84; 69; 71; 79]
    ++ [n mod 256; n / 256 mod 256; n / 65536 mod 256; n / 16777216 mod 256]
    ++ [104; 105] /\
  length bits = (8 * length message_bytes)%nat /\
  (forall k j b, message_bytes !! k = Some b -> (j < 8)%nat ->
     bits !! (8 * k + j)%nat = Some (Z.b2z (Z.testbit b (Z.of_nat j)))) /\
  exists cs g' stego,
    pixel_order (width carrier) (height carrier) (Some [112; 119]) g0 = (Ok cs, g') /\
    encode carrier [104; 105] (Some [112; 119]) g0 = (Ok stego, g') /\
    forall i bit, bits !! i = Some bit -> lsb_stream stego cs !! i = Some bit.
Proof.
  apply (frame_wire_format (R := MT19937_Random) carrier [104; 105] (Some [112; 119]) g0
           [104; 105] (marker ++ [2; 0; 0; 0] ++ [104; 105])).
  - exact carrier_rect.
  - exact carrier_uint8.
  - reflexivity.
  - reflexivity.
  - eexists. reflexivity.
  - vm_compute. lia.
Defined.

(** The effect of encoding hi in the 6 by 6 image, password pw. *)
Lemma encode_frame_effect_witness :
  let bits := message_bits (marker ++ [2; 0; 0; 0] ++ [104; 105]) in
  exists cs g' stego,
    pixel_order (width carrier) (height carrier) (Some [112; 119]) g0 = (Ok cs, g') /\
    encode carrier [104; 105] (Some [112; 119]) g0 = (Ok stego, g') /\
    height stego = height carrier /\ width stego = width carrier /\
    grid_order (width carrier) (height carrier) cs /\
    forall k c, cs !! k = Some c ->
      exists r gr b r' gr' b',
        getc carrier c = Some (r, gr, b) /\ getc stego c = Some (r', gr', b') /\
        channel_effect bits (3 * k) r r' /\
        channel_effect bits (3 * k + 1) gr gr' /\
        channel_effect bits (3 * k + 2) b b'.
Proof.
  apply (encode_frame_effect (R := MT19937_Random) carrier [104; 105] (Some [112; 119]) g0
           [104; 105] (marker ++ [2; 0; 0; 0] ++ [104; 105])).
  - exact carrier_rect.
  - exact carrier_uint8.
  - reflexivity.
  - reflexivity.
  - eexists. reflexivity.
  - vm_compute. lia.
Defined.

(** ** The library models on known values *)

Example utf8_encode_example :
  Utf8.encode [104; 105; 0x20AC; 0x1F600; 0xE9]
  = Some [104; 105; 226; 130; 172; 240; 159; 152; 128; 195; 169].
Proof. reflexivity. Qed.

Example utf8_encode_surrogate : Utf8.encode [0xD800] = None.
Proof. reflexivity. Qed.

Example utf8_decode_overlong : Utf8.decode [0xC0; 0x80] = None.
Proof. reflexivity. Qed.

Example b64encode_example :
  Base64.b64encode [255; 254; 1; 2] = [47; 47; 52; 66; 65; 103; 61; 61].
Proof. reflexivity. Qed.

Example sha256_abc :
  Sha256.digest [97; 98; 99]
  = [186; 120; 22; 191; 143; 1; 207; 234; 65; 65; 64; 222; 93; 174; 34; 35;
     176; 3; 97; 163; 150; 23; 122; 156; 180; 16; 255; 97; 242; 0; 21; 173].
Proof. vm_compute. reflexivity. Qed.

Example password_seed_pw : password_seed [112; 119] = 818500346.
Proof. vm_compute. reflexivity. Qed.

Example mt19937_seed_5 :
  let (a, g) := MT19937.genrand_uint32 (MT19937.seed 5) in
  let (b, g) := MT19937.genrand_uint32 g in
  let (c, g) := MT19937.getrandbits 70 g in
  let (d, _) := MT19937.randbelow g 1000 in
  (a, b, c, d) = (2675342405, 1097127993, 928951016526329528473, 707%nat).
Proof. vm_compute. reflexivity. Qed.

Example pixel_order_pw_8x1 :
  fst (pixel_order 8 1 (Some [112; 119]) g0)
  = Ok [(0, 0); (3, 0); (2, 0); (4, 0); (1, 0); (6, 0); (5, 0); (7, 0)]%nat.
Proof. vm_compute. reflexivity. Qed.

(** The scenario of a 10 by 10 image and the message hi. *)
Example scenario_10x10 :
  let stego := ok_or [] (fst (encode carrier_10x10 [104; 105] (Some [112; 119]) g0)) in
  fst (encode carrier_10x10 [104; 105] (Some [112; 119]) g0) = Ok stego /\
  fst (decode stego (Some [112; 119]) g0) = Ok (Some [104; 105]) /\
  fst (decode stego (Some [113]) g0) = Ok None /\
  fst (encode carrier_10x10 (repeat 65 27) None g0) = Raise (ValueError 304 300).
Proof. vm_compute. repeat split; reflexivity. Qed.

Example encode_lone_surrogate :
  fst (encode carrier [0xD800] None g0) = Raise UnicodeEncodeError.
Proof. reflexivity. Qed.

(** * Further properties *)

(** ** More about [_embed_bit] and [_extract_bit] *)

Lemma embed_bit_clamp v bit :
  _embed_bit v bit = _embed_bit (Z.max 0 (Z.min 255 v)) bit.
Proof. unfold _embed_bit. cbv zeta. f_equal. f_equal. lia. Qed.

Lemma embed_bit_near v bit : is_byte v -> Z.abs (_embed_bit v bit - v) <= 1.
Proof.
  intros Hv. unfold _embed_bit.
  destruct (land_1_cases bit) as [-> | ->]; by_bytes v.
Qed.

Lemma embed_bit_idem v bit : _embed_bit (_embed_bit v bit) bit = _embed_bit v bit.
Proof.
  rewrite (embed_bit_clamp v). set (w := Z.max 0 (Z.min 255 v)).
  assert (Hw : 0 <= w <= 255) by (unfold w; lia). clearbody w.
  unfold _embed_bit.
  destruct (land_1_cases bit) as [-> | ->]; by_bytes w.
Qed.

(** X1.  [_embed_bit] on every integer: the value is clamped to a byte, the
    result is a byte whose low bit is the low bit of [bit], which
    [_extract_bit] returns; below 0 and above 255 the seven high bits are
    those of 0 and of 255; on a byte the result is at most 1 away and
    keeps the seven high bits; embedding the same bit again changes
    nothing. *)
Theorem embed_bit_total (v bit : Z) :
  is_byte (_embed_bit v bit) /\
  _extract_bit (_embed_bit v bit) = Z.land bit 1 /\
  (v <= 0 -> _embed_bit v bit = Z.land bit 1) /\
  (255 <= v -> _embed_bit v bit = 254 + Z.land bit 1) /\
  (is_byte v ->
     Z.abs (_embed_bit v bit - v) <= 1 /\
     Z.shiftr (_embed_bit v bit) 1 = Z.shiftr v 1) /\
  _embed_bit (_embed_bit v bit) bit = _embed_bit v bit.
Proof.
  split; [apply embed_bit_byte|]. split.
  { rewrite embed_bit_clamp. unfold _extract_bit. apply embed_bit_lsb.
    unfold is_byte. lia. }
  split.
  { intros Hv. rewrite embed_bit_clamp. replace (Z.max 0 (Z.min 255 v)) with 0 by lia.
    unfold _embed_bit. destruct (land_1_cases bit) as [-> | ->]; reflexivity. }
  split.
  { intros Hv. rewrite embed_bit_clamp. replace (Z.max 0 (Z.min 255 v)) with 255 by lia.
    unfold _embed_bit. destruct (land_1_cases bit) as [-> | ->]; reflexivity. }
  split; [|apply embed_bit_idem].
  intros Hv. split; [apply embed_bit_near | apply embed_bit_high]; exact Hv.
Qed.

(** ** Arrays by their pixels *)

Lemma getitem_None_out a y x :
  rect a -> ~ in_shape a (x, y) -> getitem a y x = None.
Proof.
  unfold in_shape, getitem. cbn [fst snd]. intros Ha Hout.
  destruct (a !! y) as [row|] eqn:Hrow; [|reflexivity].
  apply lookup_ge_None. rewrite (rect_row a y row Ha Hrow).
  apply lookup_lt_Some in Hrow. unfold height in Hout. lia.
Qed.

(** Two arrays of one shape that hold the same pixels are equal. *)
Lemma ndarray_eq (a b : ndarray) :
  rect a -> rect b -> height b = height a -> width b = width a ->
  (forall y x, getitem b y x = getitem a y x) -> b = a.
Proof.
  intros Ha Hb Hh Hw Hpix. apply list_eq. intros y.
  destruct (a !! y) as [ra|] eqn:Hra.
  - destruct (lookup_lt_is_Some_2 b y) as [rb Hrb].
    { apply lookup_lt_Some in Hra. unfold height in Hh. lia. }
    rewrite Hrb. f_equal. apply list_eq. intros x.
    specialize (Hpix y x). unfold getitem in Hpix. rewrite Hra, Hrb in Hpix. exact Hpix.
  - apply lookup_ge_None in Hra. apply lookup_ge_None. unfold height in Hh. lia.
Qed.

Lemma uint8_pointwise (a : ndarray) :
  (forall y x p, getitem a y x = Some p -> uint8_pixel p) -> uint8 a.
Proof.
  intros Hpix. apply Forall_lookup. intros y row Hrow.
  apply Forall_lookup. intros x p Hp.
  apply (Hpix y x). unfold getitem. rewrite Hrow. exact Hp.
Qed.

Lemma embed_value_byte bits i v : is_byte v -> is_byte (embed_value bits i v).
Proof.
  intros Hv. unfold embed_value. destruct (bits !! i); [apply embed_bit_byte | exact Hv].
Qed.

Lemma embed_value_near bits i v :
  is_byte v -> Z.abs (embed_value bits i v - v) <= 1.
Proof.
  intros Hv. unfold embed_value. destruct (bits !! i); [apply embed_bit_near; exact Hv | lia].
Qed.

Lemma embed_value_idem bits i v :
  embed_value bits i (embed_value bits i v) = embed_value bits i v.
Proof.
  unfold embed_value. destruct (bits !! i); [apply embed_bit_idem | reflexivity].
Qed.

Lemma embed_pixel_idem bits i p :
  embed_pixel bits i (embed_pixel bits i p) = embed_pixel bits i p.
Proof.
  destruct p as [[r g] b]. unfold embed_pixel. rewrite !embed_value_idem. reflexivity.
Qed.

Lemma grid_order_lookup w h cs x y :
  grid_order w h cs -> (x < w)%nat -> (y < h)%nat -> exists k, cs !! k = Some (x, y).
Proof.
  intros (_ & _ & Hin) Hx Hy. apply list_elem_of_lookup_1. apply Hin. auto.
Qed.

Section EncodeMore.

Context {R : Random}.

(** A sequence the generator returns visits the grid once. *)
Lemma pixel_order_Ok_grid w h p g cs g' :
  pixel_order w h p g = (Ok cs, g') -> grid_order w h cs.
Proof.
  intros Hcs. destruct (truthy p) eqn:Hp.
  - destruct (Utf8.encode (default [] p)) as [b|] eqn:Hb.
    + destruct (pixel_order_grid w h p g) as (cs' & g1 & Hcs' & Hgrid); [eexists; eauto|].
      congruence.
    + rewrite pixel_order_unencodable in Hcs by auto. discriminate.
  - rewrite pixel_order_no_password in Hcs by auto. injection Hcs as <- _.
    apply raster_grid_order.
Qed.

(** The array [encode] returns, pixel by pixel at every coordinate. *)
Lemma encode_pixels a message p g message_data message_bytes :
  rect a -> uint8 a ->
  Utf8.encode message = Some message_data ->
  frame message_data = Some message_bytes ->
  encodable (default [] p) ->
  (length message_bytes * 8 <= width a * height a * 3)%nat ->
  exists cs g' stego,
    pixel_order (width a) (height a) p g = (Ok cs, g') /\
    encode a message p g = (Ok stego, g') /\
    height stego = height a /\ width stego = width a /\ rect stego /\ uint8 stego /\
    (forall k c, cs !! k = Some c ->
       getc stego c = embed_pixel (message_bits message_bytes) (3 * k) <$> getc a c) /\
    (forall y x r gr b, getitem a y x = Some (r, gr, b) ->
       exists r' gr' b',
         getitem stego y x = Some (r', gr', b') /\
         Z.abs (r' - r) <= 1 /\ Z.abs (gr' - gr) <= 1 /\ Z.abs (b' - b) <= 1).
Proof.
  intros Ha Hu Hm Hf Hp Hcap.
  destruct (encode_ok a message p g _ _ Ha Hm Hf Hp Hcap)
    as (cs & g' & stego & Hcs & Hgrid & Henc & Hh & Hw & Hr & Hvis).
  set (bits := message_bits message_bytes) in *.
  assert (Hat : forall y x q, getitem a y x = Some q ->
            exists k, getitem stego y x = Some (embed_pixel bits (3 * k) q)).
  { intros y x q Hq. pose proof (getitem_Some_in_shape a y x q Ha Hq) as [Hx Hy].
    destruct (grid_order_lookup _ _ cs x y Hgrid Hx Hy) as [k Hk].
    exists k. pose proof (Hvis k (x, y) Hk) as Hst. unfold getc in Hst. cbn [fst snd] in Hst.
    rewrite Hq in Hst. exact Hst. }
  exists cs, g', stego. repeat (split; [assumption|]). split; [|split; [exact Hvis|]].
  - apply uint8_pointwise. intros y x q Hq.
    pose proof (getitem_Some_in_shape stego y x q Hr Hq) as [Hx Hy].
    rewrite Hw in Hx. rewrite Hh in Hy. cbn [fst snd] in Hx, Hy.
    destruct (getitem_in_shape a y x Ha Hx Hy) as [[[r gr] b] Hq0].
    destruct (Hat y x _ Hq0) as [k Hk]. rewrite Hk in Hq. injection Hq as <-.
    pose proof (uint8_getitem a _ _ _ Hu Hq0) as (H1 & H2 & H3). cbn [fst snd] in H1, H2, H3.
    unfold embed_pixel, uint8_pixel. cbn [fst snd].
    auto using embed_value_byte.
  - intros y x r gr b Hq. destruct (Hat y x _ Hq) as [k Hk].
    pose proof (uint8_getitem a _ _ _ Hu Hq) as (H1 & H2 & H3). cbn [fst snd] in H1, H2, H3.
    eexists _, _, _. split; [exact Hk|]. auto using embed_value_near.
Qed.

End EncodeMore.

Section EncodeCompose.

Context {R : Random}.

(** X2.  The array [encode] returns has the shape of the carrier, is
    again an array of bytes, and every channel is at most 1 away from the
    channel of the carrier. *)
Theorem encode_imperceptible a message p g message_data message_bytes :
  rect a -> uint8 a ->
  Utf8.encode message = Some message_data ->
  frame message_data = Some message_bytes ->
  encodable (default [] p) ->
  (8 * (11 + length message_data) <= 3 * width a * height a)%nat ->
  exists stego g',
    encode a message p g = (Ok stego, g') /\
    height stego = height a /\ width stego = width a /\ rect stego /\ uint8 stego /\
    forall y x r gr b, getitem a y x = Some (r, gr, b) ->
      exists r' gr' b',
        getitem stego y x = Some (r', gr', b') /\
        Z.abs (r' - r) <= 1 /\ Z.abs (gr' - gr) <= 1 /\ Z.abs (b' - b) <= 1.
Proof.
  intros Ha Hu Hm Hf Hp Hcap.
  destruct (frame_spec _ _ Hf) as (l & Hl & Hfb & Hfbl).
  destruct (encode_pixels a message p g _ _ Ha Hu Hm Hf Hp)
    as (cs & g' & stego & _ & Henc & Hh & Hw & Hr & Hu' & _ & Hnear); [lia|].
  exists stego, g'. auto 10.
Qed.

(** X3.  Encoding the same message with the same password into the array
    [encode] returned gives that array again. *)
Theorem encode_idempotent a message p g message_data message_bytes :
  rect a -> uint8 a ->
  Utf8.encode message = Some message_data ->
  frame message_data = Some message_bytes ->
  encodable (default [] p) ->
  (8 * (11 + length message_data) <= 3 * width a * height a)%nat ->
  exists stego g',
    encode a message p g = (Ok stego, g') /\
    forall g2, fst (encode stego message p g2) = Ok stego.
Proof.
  intros Ha Hu Hm Hf Hp Hcap.
  destruct (frame_spec _ _ Hf) as (l & Hl & Hfb & Hfbl).
  destruct (encode_pixels a message p g _ _ Ha Hu Hm Hf Hp)
    as (cs & g' & stego & Hcs & Henc & Hh & Hw & Hr & Hu' & Hvis & _); [lia|].
  exists stego, g'. split; [exact Henc|]. intros g2.
  destruct (encode_pixels stego message p g2 _ _ Hr Hu' Hm Hf Hp)
    as (cs2 & g2' & stego2 & Hcs2 & Henc2 & Hh2 & Hw2 & Hr2 & _ & Hvis2 & _);
    [rewrite Hh, Hw; lia|].
  rewrite Henc2. cbn [fst]. f_equal.
  rewrite Hh, Hw in Hcs2.
  destruct (pixel_order_same _ _ _ _ _ _ g2 Hcs) as [g3 Hcs3].
  assert (cs2 = cs) as -> by congruence.
  pose proof (pixel_order_Ok_grid _ _ _ _ _ _ Hcs) as Hgrid.
  apply ndarray_eq; auto. intros y x.
  destruct (decide (in_shape a (x, y))) as [[Hx Hy] | Hout].
  - cbn [fst snd] in Hx, Hy.
    destruct (grid_order_lookup _ _ cs x y Hgrid Hx Hy) as [k Hk].
    pose proof (Hvis2 k _ Hk) as H2. pose proof (Hvis k _ Hk) as H1.
    unfold getc in H1, H2. cbn [fst snd] in H1, H2. rewrite H2, H1.
    destruct (getitem a y x) as [q|]; [|reflexivity].
    cbn [fmap option_fmap option_map]. rewrite embed_pixel_idem. reflexivity.
  - rewrite !getitem_None_out; auto.
    + unfold in_shape. rewrite Hh, Hw. exact Hout.
    + unfold in_shape. rewrite Hh2, Hw2, Hh, Hw. exact Hout.
Qed.

(** X4.  The last message wins: after a second [encode] into the array of
    a first one, with any two passwords, [decode] with the password of
    the second returns the second message. *)
Theorem encode_overwrites a m1 p1 m2 p2 g d1 f1 d2 f2 :
  rect a -> uint8 a ->
  Utf8.encode m1 = Some d1 -> frame d1 = Some f1 ->
  Utf8.encode m2 = Some d2 -> frame d2 = Some f2 ->
  m2 <> [] ->
  encodable (default [] p1) -> encodable (default [] p2) ->
  (8 * (11 + length d1) <= 3 * width a * height a)%nat ->
  (8 * (11 + length d2) <= 3 * width a * height a)%nat ->
  exists s1 g1 s2 g2,
    encode a m1 p1 g = (Ok s1, g1) /\
    encode s1 m2 p2 g1 = (Ok s2, g2) /\
    forall g3, fst (decode s2 p2 g3) = Ok (Some m2).
Proof.
  intros Ha Hu Hm1 Hf1 Hm2 Hf2 Hne Hp1 Hp2 Hcap1 Hcap2.
  destruct (frame_spec _ _ Hf1) as (l1 & _ & _ & Hl1).
  destruct (frame_spec _ _ Hf2) as (l2 & _ & _ & Hl2).
  destruct (encode_pixels a m1 p1 g _ _ Ha Hu Hm1 Hf1 Hp1)
    as (cs & g1 & s1 & _ & Henc1 & Hh & Hw & Hr & Hu' & _); [lia|].
  destruct (decode_attempt_encode s1 m2 p2 g1 _ _ Hr Hu' Hm2 Hf2 Hne Hp2)
    as (s2 & g2 & Henc2 & _ & _ & Hdec); [rewrite Hh, Hw; lia|].
  exists s1, g1, s2, g2. split; [exact Henc1|]. split; [exact Henc2|].
  intros g3. destruct (Hdec g3) as [g3' Hatt].
  rewrite (decode_first_attempt _ _ _ _ _ Hatt); [reflexivity|].
  destruct m2; [congruence | reflexivity].
Qed.

End EncodeCompose.

Lemma utf8_decode_nonempty b t : Utf8.decode (b :: t) <> Some [].
Proof.
  rewrite Utf8Facts.decode_cons. cbv zeta.
  repeat (case_match; try discriminate);
    match goal with
    | |- cons _ <$> ?x <> _ => destruct x; discriminate
    end.
Qed.

Lemma b64encode_nonempty b t : Base64.b64encode (b :: t) <> [].
Proof. destruct t as [|c [|d t]]; discriminate. Qed.

Lemma payload_text_nonempty md : md <> [] -> payload_text md <> [].
Proof.
  intros Hmd. destruct md as [|b t]; [congruence|]. unfold payload_text.
  destruct (Utf8.decode (b :: t)) as [s|] eqn:Hs.
  - intros ->. exact (utf8_decode_nonempty b t Hs).
  - apply b64encode_nonempty.
Qed.

Section DecodeFound.

Context {R : Random}.

(** An attempt that returns a text has recovered a valid header, and the
    text is not empty. *)
Lemma decode_attempt_found a w h p g s g' :
  _decode_image a w h p g = (Ok (Some s), g') ->
  s <> [] /\
  exists hb g1, header_scan a w h p g = (Ok hb, g1) /\ valid_header w h hb.
Proof.
  unfold _decode_image, try_except, decode_body, header_scan, bind, valid_header.
  change header_size with 11%nat. change marker_size with 7%nat.
  destruct (pixel_order w h p g) as [[cs|e0] g1] eqn:Hcs; [|discriminate].
  unfold lift_result at 1 3.
  destruct (extract_loop cs (11 * 8) a []) as [ext|e0] eqn:Hext; [|discriminate].
  unfold ret at 4 5.
  set (hb := bits_to_bytes 11 ext).
  destruct ((7 <=? length hb)%nat && bool_decide (take 7 hb = marker)) eqn:Hmark;
    [|discriminate].
  apply andb_prop in Hmark as [_ Hmark]. apply bool_decide_eq_true_1 in Hmark.
  destruct (struct_unpack_I (take 4 (drop 7 hb))) as [L|] eqn:HL; [|discriminate].
  unfold lift_option, ret at 1. cbv beta iota.
  destruct ((L <=? 0) || (Z.of_nat (w * h) <? L)) eqn:Hvalid; [discriminate|].
  apply orb_false_elim in Hvalid as [HL0 HLwh].
  apply Z.leb_gt in HL0. apply Z.ltb_ge in HLwh.
  set (total := (11 + Z.to_nat L)%nat).
  intros Hr.
  assert (Hfound : exists ext2,
            (length ext2 <= 3 * (w * h))%nat /\
            (total <=? length (bits_to_bytes total ext2))%nat = true /\
            s = payload_text (take (Z.to_nat L) (drop 11 (bits_to_bytes total ext2)))).
  { destruct (extract_loop_length _ _ _ _ _ Hext) as (n & Hn & Hlen).
    rewrite (pixel_order_length _ _ _ _ _ _ Hcs) in Hn. cbn [length Nat.add] in Hlen.
    destruct (length ext <? total * 8)%nat.
    - unfold lift_result in Hr.
      destruct (extract_loop (drop (length ext / 3) cs) (total * 8) a ext) as [ext2|e0] eqn:Hext2;
        [|discriminate].
      destruct (extract_loop_length _ _ _ _ _ Hext2) as (n' & Hn' & Hlen').
      rewrite length_drop, (pixel_order_length _ _ _ _ _ _ Hcs), Hlen in Hn'.
      replace (3 * n / 3)%nat with n in Hn' by (apply Nat.div_unique_exact; lia).
      exists ext2. split; [lia|].
      destruct (total <=? length (bits_to_bytes total ext2))%nat; [|discriminate].
      split; [reflexivity|]. unfold ret in Hr. congruence.
    - unfold ret at 1 in Hr. exists ext. split; [lia|].
      destruct (total <=? length (bits_to_bytes total ext))%nat; [|discriminate].
      split; [reflexivity|]. unfold ret in Hr. congruence. }
  destruct Hfound as (ext2 & Hlen2 & Htot & ->).
  apply Nat.leb_le in Htot. pose proof Htot as Htot'.
  rewrite bits_to_bytes_length in Htot'.
  pose proof (Nat.div_mod_eq (length ext2) 8).
  pose proof (Nat.mod_upper_bound (length ext2) 8).
  split.
  - apply payload_text_nonempty. intros Hnil.
    apply (f_equal length) in Hnil. rewrite length_take, length_drop in Hnil.
    cbn [length] in Hnil. unfold total in *. lia.
  - exists hb, g1. split; [reflexivity|]. split; [exact Hmark|].
    exists L. split; [exact HL|]. split; [lia|]. unfold total in *. lia.
Qed.

(** A text that [decode] returns is the text of one of its two attempts. *)
Lemma decode_Some_attempt a p g s :
  fst (decode a p g) = Ok (Some s) ->
  exists q g1 g2,
    (q = p \/ q = None) /\
    _decode_image a (width a) (height a) q g1 = (Ok (Some s), g2).
Proof.
  unfold decode, bind.
  destruct (decode_image_total a (width a) (height a) p g) as (r1 & g1 & Hatt1).
  rewrite Hatt1. destruct (truthy r1) eqn:Ht1.
  - cbn [fst]. intros [= ->]. exists p, g, g1. auto.
  - destruct (truthy p); [|discriminate].
    destruct (decode_image_total a (width a) (height a) None g1) as (r2 & g2 & Hatt2).
    rewrite Hatt2. destruct (truthy r2) eqn:Ht2; [|discriminate].
    cbn [fst]. intros [= ->]. exists None, g1, g2. auto.
Qed.

(** X5.  [decode] returns a text only when one of its two attempts, with
    the password or without, has recovered the marker, a length from 1 to
    width * height and the bits of the whole frame; the image then has at
    least 32 pixels, and the text is not empty: the truth test of
    line 172 drops no payload that was found. *)
Theorem decode_found a p g s :
  fst (decode a p g) = Ok (Some s) ->
  s <> [] /\ (32 <= width a * height a)%nat /\
  exists q g1 hb g2,
    (q = p \/ q = None) /\
    header_scan a (width a) (height a) q g1 = (Ok hb, g2) /\
    valid_header (width a) (height a) hb.
Proof.
  intros Hs.
  destruct (decode_Some_attempt _ _ _ _ Hs) as (q & g1 & g2 & Hq & Hatt).
  destruct (decode_attempt_found _ _ _ _ _ _ _ Hatt) as (Hne & hb & g3 & Hscan & Hvalid).
  split; [exact Hne|]. split.
  - destruct Hvalid as (_ & L & _ & HL & Hbits). lia.
  - exists q, g1, hb, g3. auto.
Qed.

Lemma decode_None_of_no_text a p g :
  (forall s, fst (decode a p g) <> Ok (Some s)) -> fst (decode a p g) = Ok None.
Proof.
  intros Hno. destruct (decode_total a p g) as (r & g' & Hd). rewrite Hd in *.
  cbn [fst] in *. destruct r as [s|]; [exfalso; exact (Hno s eq_refl) | reflexivity].
Qed.

(** X6.  An image of fewer than 32 pixels holds no frame: [decode] returns
    [None] for every password, whatever its pixels. *)
Theorem decode_small_image a p g :
  (width a * height a < 32)%nat -> fst (decode a p g) = Ok None.
Proof.
  intros Hsmall. apply decode_None_of_no_text. intros s Hs.
  destruct (decode_Some_attempt _ _ _ _ Hs) as (q & g1 & g2 & _ & Hatt).
  destruct (decode_attempt_found _ _ _ _ _ _ _ Hatt)
    as (_ & hb & g3 & _ & _ & L & _ & HL & Hbits).
  lia.
Qed.

End DecodeFound.

Lemma getitem_lsb_clear a y x p : lsb_clear a -> getitem a y x = Some p -> lsb3 p = [0; 0; 0].
Proof.
  unfold getitem. intros Ha Hp.
  destruct (a !! y) as [row|] eqn:Hrow; [|discriminate].
  pose proof (proj1 (Forall_lookup _ a) Ha y row Hrow) as Hr.
  exact (proj1 (Forall_lookup _ row) Hr x p Hp).
Qed.

Lemma extract_loop_clear a cs : forall needed ext ext',
  lsb_clear a -> Forall (eq 0) ext ->
  extract_loop cs needed a ext = Ok ext' -> Forall (eq 0) ext'.
Proof.
  induction cs as [|[x y] cs IH]; intros needed ext ext' Ha Hext; cbn [extract_loop].
  - intros [= <-]. exact Hext.
  - destruct (needed <=? length ext)%nat; [intros [= <-]; exact Hext|].
    destruct (getitem a y x) as [[[r g] b]|] eqn:Hp; [|discriminate].
    apply IH; [exact Ha|]. apply Forall_app. split; [exact Hext|].
    pose proof (getitem_lsb_clear _ _ _ _ Ha Hp) as Hl. cbn [lsb3] in Hl.
    injection Hl as -> -> ->. repeat constructor.
Qed.

Lemma assemble_byte_clear bits i : Forall (eq 0) bits -> assemble_byte bits i = 0.
Proof.
  intros Hb.
  assert (Hz : forall k, default 0 (bits !! k) = 0).
  { intros k. destruct (bits !! k) as [v|] eqn:Hv; [|reflexivity].
    symmetry. exact (proj1 (Forall_lookup _ bits) Hb k v Hv). }
  unfold assemble_byte. cbn [seq fold_left]. rewrite !Hz. reflexivity.
Qed.

Lemma bits_to_bytes_clear n bits : Forall (eq 0) bits -> Forall (eq 0) (bits_to_bytes n bits).
Proof.
  intros Hb. unfold bits_to_bytes. apply Forall_flat_map, Forall_forall.
  intros k _. destruct (decide _); [|constructor].
  constructor; [|constructor]. symmetry. apply assemble_byte_clear, Hb.
Qed.

Section DecodeMore.

Context {R : Random}.

(** X7.  An array whose channels all have a clear least significant bit
    (an all-black or all-even image, say) decodes to [None] for every
    password: the marker is never found. *)
Theorem decode_lsb_clear a p g : lsb_clear a -> fst (decode a p g) = Ok None.
Proof.
  intros Ha. apply decode_None_of_no_text. intros s Hs.
  destruct (decode_Some_attempt _ _ _ _ Hs) as (q & g1 & g4 & _ & Hatt).
  destruct (decode_attempt_found _ _ _ _ _ _ _ Hatt) as (_ & hb & g2 & Hscan & Hmark & _).
  unfold header_scan, bind in Hscan.
  destruct (pixel_order (width a) (height a) q g1) as [[cs|e] g3]; [|discriminate].
  unfold lift_result in Hscan.
  destruct (extract_loop cs (header_size * 8) a []) as [ext|e] eqn:Hext; [|discriminate].
  unfold ret in Hscan. injection Hscan as <- _.
  pose proof (extract_loop_clear _ _ _ _ _ Ha (Forall_nil_2 _) Hext) as Hclear.
  apply (bits_to_bytes_clear header_size) in Hclear.
  destruct (bits_to_bytes header_size ext) as [|b hb]; [discriminate|].
  apply Forall_cons in Hclear as [<- _]. discriminate.
Qed.

(** The state of the generator after an attempt is the one the pixel
    order leaves. *)
Lemma decode_image_state a w h p g :
  snd (_decode_image a w h p g) = snd (pixel_order w h p g).
Proof.
  unfold _decode_image, try_except, decode_body, bind.
  destruct (pixel_order w h p g) as [[cs|e] g1]; [|reflexivity].
  unfold lift_result, lift_option, ret, raise.
  repeat (case_match; simplify_eq/=); reflexivity.
Qed.

Lemma pixel_order_state_after w h p g :
  snd (pixel_order w h p g) = state_after w h p g.
Proof.
  unfold state_after. destruct (truthy p) eqn:Hp.
  - destruct (Utf8.encode (default [] p)) as [b|] eqn:Hb.
    + rewrite (pixel_order_password _ _ _ _ _ Hp Hb). reflexivity.
    + rewrite (pixel_order_unencodable _ _ _ _ Hp Hb). reflexivity.
  - rewrite (pixel_order_no_password _ _ _ _ Hp). reflexivity.
Qed.

(** X8.  [decode] leaves the process-wide generator in a state that
    depends on the password and the size of the image only: the state
    after seeding with the password and shuffling width * height indices
    when a password is given, the state before the call otherwise. *)
Theorem decode_random_state a p g :
  snd (decode a p g) = state_after (width a) (height a) p g.
Proof.
  rewrite <- pixel_order_state_after, <- (decode_image_state a).
  unfold decode, bind.
  destruct (_decode_image a (width a) (height a) p g) as [[r1|e] g1] eqn:Hatt1;
    [|reflexivity].
  destruct (truthy r1); [reflexivity|].
  destruct (truthy p); [|reflexivity].
  pose proof (decode_image_state a (width a) (height a) None g1) as Hst.
  rewrite (pixel_order_no_password _ _ None g1 eq_refl) in Hst. cbn [snd] in Hst.
  destruct (_decode_image a (width a) (height a) None g1) as [[r2|e] g2];
    cbn [snd] in *; subst g2; [|reflexivity].
  destruct (truthy r2); reflexivity.
Qed.

(** X9.  An [encode] that returns leaves the generator in the state in
    which [decode] leaves it with that password on an image of that
    size. *)
Theorem encode_random_state a message p g stego :
  fst (encode a message p g) = Ok stego ->
  snd (encode a message p g) = state_after (width a) (height a) p g.
Proof.
  rewrite <- pixel_order_state_after.
  unfold encode, bind, lift_option, raise, ret.
  destruct (Utf8.encode message) as [md|]; [|discriminate].
  destruct (frame md) as [fb|]; [|discriminate].
  destruct (_ <? _)%nat; [discriminate|].
  destruct (pixel_order (width a) (height a) p g) as [[cs|e0] g1]; [|discriminate].
  unfold lift_result.
  destruct (embed_loop cs (message_bits fb) 0 a); [reflexivity|discriminate].
Qed.

(** A pixel order that raises anything but [IndexError] has raised on the
    password, before seeding. *)
Lemma pixel_order_raise_state w h p g e g1 :
  pixel_order w h p g = (Raise e, g1) -> e <> IndexError -> g1 = g.
Proof.
  intros Hcs He. destruct (truthy p) eqn:Hp.
  - destruct (Utf8.encode (default [] p)) as [b|] eqn:Hb.
    + destruct (pixel_order_raises _ _ _ _ _ _ Hcs) as [->| ->]; [|congruence].
      unfold pixel_order, bind, lift_option in Hcs. rewrite Hp, Hb in Hcs.
      unfold ret at 1, seed in Hcs. cbv beta iota in Hcs.
      destruct (shuffle _ _) as [[px|e1] g2] eqn:Hsh; [discriminate|].
      injection Hcs as -> _.
      apply shuffle_loop_raises in Hsh. congruence.
    + rewrite (pixel_order_unencodable _ _ _ _ Hp Hb) in Hcs. congruence.
  - rewrite (pixel_order_no_password _ _ _ _ Hp) in Hcs. discriminate.
Qed.

(** X10.  An [encode] that raises for the message, the password or the
    capacity has not touched the generator. *)
Theorem encode_raise_state a message p g e :
  fst (encode a message p g) = Raise e -> e <> IndexError ->
  snd (encode a message p g) = g.
Proof.
  unfold encode, bind, lift_option, raise, ret.
  destruct (Utf8.encode message) as [md|]; [|reflexivity].
  destruct (frame md) as [fb|]; [|reflexivity].
  destruct (_ <? _)%nat; [reflexivity|].
  destruct (pixel_order (width a) (height a) p g) as [[cs|e0] g1] eqn:Hcs.
  - unfold lift_result.
    destruct (embed_loop cs (message_bits fb) 0 a) as [stego|e0] eqn:Hloop;
      [discriminate|].
    cbn [fst snd]. intros [= <-] He. apply embed_loop_raises in Hloop. congruence.
  - cbn [fst snd]. intros [= <-] He. exact (pixel_order_raise_state _ _ _ _ _ _ Hcs He).
Qed.

End DecodeMore.

Section Base64Fallback.

Context {R : Random}.

Lemma pixel_order_Ok_encodable w h p g cs :
  fst (pixel_order w h p g) = Ok cs -> encodable (default [] p).
Proof.
  intros Hcs. destruct (truthy p) eqn:Hp.
  - destruct (Utf8.encode (default [] p)) as [b|] eqn:Hb; [exists b; exact Hb|].
    rewrite (pixel_order_unencodable _ _ _ _ Hp Hb) in Hcs. discriminate.
  - destruct p as [[|c s]|]; try discriminate; exists []; reflexivity.
Qed.

(** X11.  The fallback of lines 294-300: when the least significant bits
    along the pixel order of the password spell a frame whose payload is
    not valid UTF-8, [decode] returns the base64 text of the payload. *)
Theorem decode_base64_fallback a p g cs message_data message_bytes :
  rect a ->
  Forall is_byte message_data -> message_data <> [] ->
  frame message_data = Some message_bytes ->
  (length message_bytes * 8 <= width a * height a * 3)%nat ->
  fst (pixel_order (width a) (height a) p g) = Ok cs ->
  take (8 * length message_bytes) (lsb_stream a cs) = message_bits message_bytes ->
  Utf8.decode message_data = None ->
  fst (decode a p g) = Ok (Some (Base64.b64encode message_data)).
Proof.
  intros Ha Hmd Hne Hf Hcap Hcs Hstream Hdec.
  pose proof (pixel_order_Ok_encodable _ _ _ _ _ Hcs) as Hp.
  destruct (pixel_order_grid (width a) (height a) p g Hp) as (cs' & g1 & Hcs' & Hgrid).
  rewrite Hcs' in Hcs. cbn [fst] in Hcs. injection Hcs as ->.
  destruct (frame_spec _ _ Hf) as (l & Hl & Hfb & Hfbl).
  assert (Hatt : _decode_image a (width a) (height a) p g
                 = (Ok (Some (payload_text message_data)), g1)).
  { apply (decode_attempt_frame a p g cs g1 message_data l); auto.
    - destruct message_data; [congruence|]. cbn [length]. lia.
    - rewrite <- Hfb. exact Hcap.
    - rewrite <- Hfb. intros j bit Hbit. rewrite <- Hstream in Hbit.
      apply lookup_take_Some in Hbit. tauto. }
  assert (Hpt : payload_text message_data = Base64.b64encode message_data)
    by (unfold payload_text; rewrite Hdec; reflexivity).
  rewrite Hpt in Hatt.
  rewrite (decode_first_attempt _ _ _ _ _ Hatt); [reflexivity|].
  destruct message_data as [|b t]; [congruence|].
  pose proof (b64encode_nonempty b t).
  destruct (Base64.b64encode (b :: t)); [congruence|reflexivity].
Qed.

End Base64Fallback.

(** ** The output path and the window *)

Lemma lstrip_spec s :
  exists l, s = l ++ lstrip s /\ forallb isspace l = true /\
    forall c, head (lstrip s) = Some c -> isspace c = false.
Proof.
  induction s as [|c t (l & Hl & Hsp & Hhd)]; cbn [lstrip].
  - exists []. repeat split; [discriminate].
  - destruct (isspace c) eqn:Hc.
    + exists (c :: l). cbn [app forallb]. rewrite Hc, Hsp, <- Hl. auto.
    + exists []. repeat split. intros c' [= <-]. exact Hc.
Qed.

Lemma last_rev (l : str) : last (rev l) = head l.
Proof. destruct l as [|x l]; [reflexivity|]. cbn [rev head]. apply last_snoc. Qed.

Lemma rstrip_spec s :
  exists r, s = rstrip s ++ r /\ forallb isspace r = true /\
    forall c, last (rstrip s) = Some c -> isspace c = false.
Proof.
  unfold rstrip. destruct (lstrip_spec (rev s)) as (l & Hl & Hsp & Hhd).
  exists (rev l). split; [|split].
  - rewrite <- rev_app_distr, <- Hl, rev_involutive. reflexivity.
  - rewrite forallb_forall in *. intros x Hx. apply Hsp, in_rev, Hx.
  - intros c Hc. apply Hhd. rewrite <- Hc, last_rev. reflexivity.
Qed.

Lemma strip_spec s :
  exists l r, s = l ++ strip s ++ r /\
    forallb isspace l = true /\ forallb isspace r = true /\
    (forall c, head (strip s) = Some c -> isspace c = false) /\
    (forall c, last (strip s) = Some c -> isspace c = false).
Proof.
  unfold strip.
  destruct (lstrip_spec s) as (l & Hl & Hsl & Hhd).
  destruct (rstrip_spec (lstrip s)) as (r & Hr & Hsr & Hlast).
  exists l, r. split; [congruence|]. split; [exact Hsl|]. split; [exact Hsr|].
  split; [|exact Hlast].
  intros c Hc. apply Hhd. rewrite Hr.
  destruct (rstrip (lstrip s)); [discriminate|exact Hc].
Qed.

Lemma nonempty_true s : nonempty s = true <-> s <> [].
Proof. destruct s; cbn; split; congruence. Qed.

Section WindowFacts.

Variable isfile : str -> bool.

(** What the handler has checked when it starts an encode. *)
Lemma process_action_encode_inv f path message pw :
  _process_action isfile f = StartEncode path message pw ->
  path = image_path f /\ message = strip (message_text f) /\
  message <> [] /\
  pw = (if use_password f then Some (password f) else None) /\
  (pw = None \/ truthy pw = true).
Proof.
  unfold _process_action.
  destruct (negb (nonempty (image_path f)) || negb (isfile (image_path f)));
    [discriminate|].
  cbv zeta. intros Hact.
  destruct (use_password f).
  - destruct (password f) as [|c s]; [discriminate|].
    cbn [nonempty negb andb default] in Hact.
    destruct (bool_decide _); [|discriminate].
    destruct (nonempty (strip (message_text f))) eqn:Hm; [|discriminate].
    apply nonempty_true in Hm. injection Hact as <- <- <-. auto 10.
  - cbn [andb] in Hact. destruct (bool_decide _); [|discriminate].
    destruct (nonempty (strip (message_text f))) eqn:Hm; [|discriminate].
    apply nonempty_true in Hm. injection Hact as <- <- <-. auto 10.
Qed.

(** What the handler has checked when it starts a decode. *)
Lemma process_action_decode_inv f path pw :
  _process_action isfile f = StartDecode path pw ->
  operation f <> op_encode /\
  pw = (if use_password f then Some (password f) else None).
Proof.
  unfold _process_action.
  destruct (negb (nonempty (image_path f)) || negb (isfile (image_path f)));
    [discriminate|].
  cbv zeta. intros Hact.
  assert (Hop : bool_decide (operation f = op_encode) = false).
  { destruct (bool_decide _); [|reflexivity].
    destruct (use_password f && _); [discriminate|].
    destruct (nonempty (strip (message_text f))); discriminate. }
  rewrite Hop in Hact. apply bool_decide_eq_false_1 in Hop.
  split; [exact Hop|].
  destruct (use_password f && _); [discriminate|].
  injection Hact as _ <-. reflexivity.
Qed.

(** X12.  The handler of the action button starts an encode only for an
    existing image file, with the text of the message box without the
    white space around it, which is then not empty and neither starts nor
    ends with white space, and with a password that is absent or not
    empty. *)
Theorem process_action_encode f path message pw :
  _process_action isfile f = StartEncode path message pw ->
  path = image_path f /\ isfile path = true /\
  message <> [] /\
  (exists l r, message_text f = l ++ message ++ r /\
     forallb isspace l = true /\ forallb isspace r = true) /\
  (forall c, head message = Some c -> isspace c = false) /\
  (forall c, last message = Some c -> isspace c = false) /\
  (pw = None \/ truthy pw = true) /\
  pw = (if use_password f then Some (password f) else None).
Proof.
  intros Hact.
  destruct (process_action_encode_inv _ _ _ _ Hact) as (-> & -> & Hm & Hpw & Hpw').
  assert (Hfile : isfile (image_path f) = true).
  { unfold _process_action in Hact.
    destruct (isfile (image_path f)); [reflexivity|].
    rewrite orb_true_r in Hact. discriminate. }
  destruct (strip_spec (message_text f)) as (l & r & Hs & Hl & Hr & Hhd & Hlast).
  split; [reflexivity|]. split; [exact Hfile|]. split; [exact Hm|].
  split; [exists l, r; auto|]. auto.
Qed.

(** X13.  It starts a decode only for an existing image file and with a
    password that is absent or not empty, so that [decode] runs its second
    attempt exactly when the box of the password is ticked. *)
Theorem process_action_decode f path pw :
  _process_action isfile f = StartDecode path pw ->
  path = image_path f /\ isfile path = true /\
  operation f <> op_encode /\
  pw = (if use_password f then Some (password f) else None) /\
  truthy pw = use_password f.
Proof.
  intros Hact.
  destruct (process_action_decode_inv _ _ _ Hact) as (Hop & Hpw).
  unfold _process_action in Hact.
  destruct (nonempty (image_path f)); [|discriminate].
  destruct (isfile (image_path f)) eqn:Hfile; [|discriminate].
  cbn [negb orb] in Hact. cbv zeta in Hact.
  rewrite (bool_decide_eq_false_2 _ Hop) in Hact.
  destruct (use_password f).
  - destruct (password f) as [|c s]; [discriminate|].
    cbn [nonempty negb andb default] in Hact. injection Hact as <- _.
    subst pw. auto 10.
  - cbn [andb] in Hact. injection Hact as <- _. subst pw. auto 10.
Qed.

End WindowFacts.

(** *** [rfind] and [_splitext] *)

Lemma rfind_from_spec c p : forall i found, found < i ->
  let d := rfind_from i p c found in
  (d = found /\ c ∉ p) \/
  (i <= d /\ p !! Z.to_nat (d - i) = Some c /\ c ∉ drop (S (Z.to_nat (d - i))) p).
Proof.
  induction p as [|x t IH]; intros i found Hfi; cbn [rfind_from].
  - left. split; [reflexivity|]. apply not_elem_of_nil.
  - destruct (IH (i + 1) (if x =? c then i else found)) as [[Hd Hnot]|(Hid & Hlook & Hnot)].
    + destruct (x =? c); lia.
    + cbv zeta. rewrite Hd. destruct (x =? c) eqn:Hxc.
      * apply Z.eqb_eq in Hxc as ->. right. split; [lia|].
        rewrite Z.sub_diag. split; [reflexivity|exact Hnot].
      * apply Z.eqb_neq in Hxc. left. split; [reflexivity|].
        apply not_elem_of_cons. split; [congruence|exact Hnot].
    + cbv zeta. right. split; [lia|].
      replace (Z.to_nat (rfind_from (i + 1) t c (if x =? c then i else found) - i))
        with (S (Z.to_nat (rfind_from (i + 1) t c (if x =? c then i else found) - (i + 1))))
        by lia.
      split; [exact Hlook|exact Hnot].
Qed.

Lemma rfind_spec p c :
  (rfind p c = -1 /\ c ∉ p) \/
  (0 <= rfind p c /\ p !! Z.to_nat (rfind p c) = Some c /\
   c ∉ drop (S (Z.to_nat (rfind p c))) p).
Proof.
  unfold rfind. destruct (rfind_from_spec c p 0 (-1)) as [H|H]; [lia|left; exact H|].
  right. rewrite Z.sub_0_r in H. exact H.
Qed.

Lemma lookup_elem_of_drop (p : str) c n m :
  p !! n = Some c -> (m < n)%nat -> c ∈ drop (S m) p.
Proof.
  intros Hn Hm. apply (list_elem_of_lookup_2 _ (n - S m)).
  rewrite lookup_drop. replace (S m + (n - S m))%nat with n by lia. exact Hn.
Qed.

Lemma rfind_unique p c d :
  0 <= d -> p !! Z.to_nat d = Some c -> c ∉ drop (S (Z.to_nat d)) p -> rfind p c = d.
Proof.
  intros Hd Hlook Hnot.
  destruct (rfind_spec p c) as [[_ Hno]|(Hd' & Hlook' & Hnot')].
  - exfalso. apply Hno. eapply list_elem_of_lookup_2, Hlook.
  - destruct (Z.lt_trichotomy (rfind p c) d) as [Hlt|[Heq|Hgt]]; [|exact Heq|].
    + exfalso. apply Hnot'. apply (lookup_elem_of_drop _ _ (Z.to_nat d)); [exact Hlook|lia].
    + exfalso. apply Hnot. apply (lookup_elem_of_drop _ _ (Z.to_nat (rfind p c)));
        [exact Hlook'|lia].
Qed.

Lemma rfind_none p c : c ∉ p -> rfind p c = -1.
Proof.
  intros Hno. destruct (rfind_spec p c) as [[H _]|(_ & Hlook & _)]; [exact H|].
  exfalso. apply Hno. eapply list_elem_of_lookup_2, Hlook.
Qed.

Lemma rfind_range p c : -1 <= rfind p c < Z.of_nat (length p).
Proof.
  destruct (rfind_spec p c) as [[H _]|(H0 & Hlook & _)]; [lia|].
  apply lookup_lt_Some in Hlook. lia.
Qed.

Lemma rfind_app_r p q c :
  0 <= rfind q c -> rfind (p ++ q) c = Z.of_nat (length p) + rfind q c.
Proof.
  intros Hd. destruct (rfind_spec q c) as [[H _]|(_ & Hlook & Hnot)]; [lia|].
  apply rfind_unique; [lia| |].
  - rewrite lookup_app_r by lia.
    replace (Z.to_nat (Z.of_nat (length p) + rfind q c) - length p)%nat
      with (Z.to_nat (rfind q c)) by lia.
    exact Hlook.
  - rewrite drop_app_ge by lia.
    replace (S (Z.to_nat (Z.of_nat (length p) + rfind q c)) - length p)%nat
      with (S (Z.to_nat (rfind q c))) by lia.
    exact Hnot.
Qed.

Lemma rfind_app_l p q c : c ∉ q -> rfind (p ++ q) c = rfind p c.
Proof.
  intros Hq. destruct (rfind_spec p c) as [[H Hno]|(Hd & Hlook & Hnot)].
  - rewrite H. apply rfind_none. rewrite elem_of_app. tauto.
  - pose proof (lookup_lt_Some _ _ _ Hlook) as Hlt.
    apply rfind_unique; [exact Hd| |].
    + rewrite lookup_app_l by exact Hlt. exact Hlook.
    + rewrite drop_app_le by lia. rewrite elem_of_app. tauto.
Qed.

Lemma sep_index_range p sep altsep : -1 <= sep_index p sep altsep < Z.of_nat (length p).
Proof.
  unfold sep_index. pose proof (rfind_range p sep).
  destruct altsep as [a|]; [pose proof (rfind_range p a)|]; lia.
Qed.

(** The two parts of [_splitext] make up the path, and the second is empty
    or starts with the dot. *)
Lemma splitext_spec p sep altsep extsep :
  fst (_splitext p sep altsep extsep) ++ snd (_splitext p sep altsep extsep) = p /\
  (snd (_splitext p sep altsep extsep) = [] \/
   head (snd (_splitext p sep altsep extsep)) = Some extsep).
Proof.
  unfold _splitext. fold (sep_index p sep altsep). cbv zeta.
  pose proof (sep_index_range p sep altsep) as Hsep.
  destruct (_ && _) eqn:Hcond; cbn [fst snd].
  - apply andb_prop in Hcond as [Hlt _]. apply Z.ltb_lt in Hlt.
    split; [apply take_drop|]. right.
    destruct (rfind_spec p extsep) as [[H _]|(_ & Hlook & _)]; [lia|].
    rewrite (drop_S _ _ _ Hlook). reflexivity.
  - split; [apply app_nil_r|]. left. reflexivity.
Qed.

Lemma splitext_stego_suffix base sep altsep :
  sep ∉ stego_suffix -> (forall a, altsep = Some a -> a ∉ stego_suffix) ->
  _splitext (base ++ stego_suffix) sep altsep 46 = (base ++ stego_stem, dot_png).
Proof.
  intros Hsep Halt. unfold _splitext. fold (sep_index (base ++ stego_suffix) sep altsep).
  cbv zeta.
  assert (Hsi : sep_index (base ++ stego_suffix) sep altsep = sep_index base sep altsep).
  { unfold sep_index. rewrite (rfind_app_l _ _ _ Hsep).
    destruct altsep as [a|]; [|reflexivity].
    rewrite (rfind_app_l _ _ _ (Halt a eq_refl)). reflexivity. }
  rewrite Hsi. pose proof (sep_index_range base sep altsep) as Hrange.
  rewrite (rfind_app_r base stego_suffix 46) by (vm_compute; discriminate).
  change (rfind stego_suffix 46) with 6.
  replace (Z.to_nat (Z.of_nat (length base) + 6)) with (length base + 6)%nat by lia.
  assert (Hcond : (sep_index base sep altsep <? Z.of_nat (length base) + 6) &&
            existsb (fun filenameIndex =>
                       negb (bool_decide ((base ++ stego_suffix) !! filenameIndex = Some 46)))
              (seq (Z.to_nat (sep_index base sep altsep + 1))
                 (Z.to_nat (Z.of_nat (length base) + 6 - (sep_index base sep altsep + 1))))
            = true).
  { apply andb_true_intro. split; [apply Z.ltb_lt; lia|].
    apply existsb_exists. exists (length base). split.
    - apply in_seq. lia.
    - rewrite lookup_app_r, Nat.sub_diag by lia. reflexivity. }
  rewrite Hcond.
  change stego_suffix with (stego_stem ++ dot_png) at 1 2.
  rewrite app_assoc.
  replace (length base + 6)%nat with (length (base ++ stego_stem))
    by (rewrite length_app; reflexivity).
  rewrite take_app_length, drop_app_length. reflexivity.
Qed.

(** X14.  Lines 135-137: without an output path the stego image is saved
    beside the carrier, under the path without its extension followed by
    [_stego.png]. On both kinds of platform this is never the path of the
    carrier, and its own extension is [.png]. *)
Theorem output_path_default os image_path :
  let base := fst (os_path_splitext os image_path) in
  output_path_of os image_path None = base ++ stego_suffix /\
  (exists ext, image_path = base ++ ext /\ (ext = [] \/ head ext = Some 46)) /\
  output_path_of os image_path None <> image_path /\
  os_path_splitext os (output_path_of os image_path None) = (base ++ stego_stem, dot_png).
Proof.
  cbv zeta.
  assert (Hout : output_path_of os image_path None
                 = fst (os_path_splitext os image_path) ++ stego_suffix).
  { unfold output_path_of. destruct (os_path_splitext os image_path). reflexivity. }
  assert (Hspec : fst (os_path_splitext os image_path) ++ snd (os_path_splitext os image_path)
                  = image_path /\
                  (snd (os_path_splitext os image_path) = [] \/
                   head (snd (os_path_splitext os image_path)) = Some 46))
    by (destruct os; apply splitext_spec).
  destruct Hspec as [Hsplit Hext].
  split; [exact Hout|]. split; [|split].
  - exists (snd (os_path_splitext os image_path)). auto.
  - rewrite Hout. intros Heq. rewrite <- Hsplit in Heq at 2.
    apply app_inv_head in Heq. rewrite <- Heq in Hext.
    destruct Hext as [Hnil|Hdot]; discriminate.
  - rewrite Hout. destruct os; apply splitext_stego_suffix.
    + apply (bool_decide_unpack _). vm_compute. exact I.
    + discriminate.
    + apply (bool_decide_unpack _). vm_compute. exact I.
    + intros a [= <-]. apply (bool_decide_unpack _). vm_compute. exact I.
Qed.

Section WindowRoundTrip.

Context {R : Random}.
Variable isfile : str -> bool.


End WindowRoundTrip.

(** ** The further properties on the example inputs *)

Lemma encode_imperceptible_witness :
  exists stego g',
    encode carrier [104; 105] (Some [112; 119]) g0 = (Ok stego, g') /\
    height stego = height carrier /\ width stego = width carrier /\
    rect stego /\ uint8 stego /\
    forall y x r gr b, getitem carrier y x = Some (r, gr, b) ->
      exists r' gr' b',
        getitem stego y x = Some (r', gr', b') /\
        Z.abs (r' - r) <= 1 /\ Z.abs (gr' - gr) <= 1 /\ Z.abs (b' - b) <= 1.
Proof.
  apply (encode_imperceptible (R := MT19937_Random) carrier [104; 105] (Some [112; 119]) g0
           [104; 105] (marker ++ [2; 0; 0; 0] ++ [104; 105])).
  - exact carrier_rect.
  - exact carrier_uint8.
  - reflexivity.
  - reflexivity.
  - eexists. reflexivity.
  - vm_compute. lia.
Defined.

Lemma encode_idempotent_witness :
  exists stego g',
    encode carrier [104; 105] (Some [112; 119]) g0 = (Ok stego, g') /\
    forall g2, fst (encode stego [104; 105] (Some [112; 119]) g2) = Ok stego.
Proof.
  apply (encode_idempotent (R := MT19937_Random) carrier [104; 105] (Some [112; 119]) g0
           [104; 105] (marker ++ [2; 0; 0; 0] ++ [104; 105])).
  - exact carrier_rect.
  - exact carrier_uint8.
  - reflexivity.
  - reflexivity.
  - eexists. reflexivity.
  - vm_compute. lia.
Defined.

Lemma encode_overwrites_witness :
  exists s1 g1 s2 g2,
    encode carrier [104; 105] (Some [112; 119]) g0 = (Ok s1, g1) /\
    encode s1 [88] None g1 = (Ok s2, g2) /\
    forall g3, fst (decode s2 None g3) = Ok (Some [88]).
Proof.
  apply (encode_overwrites (R := MT19937_Random) carrier [104; 105] (Some [112; 119])
           [88] None g0
           [104; 105] (marker ++ [2; 0; 0; 0] ++ [104; 105])
           [88] (marker ++ [1; 0; 0; 0] ++ [88])).
  - exact carrier_rect.
  - exact carrier_uint8.
  - reflexivity.
  - reflexivity.
  - reflexivity.
  - reflexivity.
  - discriminate.
  - eexists. reflexivity.
  - eexists. reflexivity.
  - vm_compute. lia.
  - vm_compute. lia.
Defined.

Lemma decode_found_witness :
  [104; 105] <> [] /\ (32 <= width stego_hi * height stego_hi)%nat /\
  exists q g1 hb g2,
    (q = Some [112; 119] \/ q = None) /\
    header_scan stego_hi (width stego_hi) (height stego_hi) q g1 = (Ok hb, g2) /\
    valid_header (width stego_hi) (height stego_hi) hb.
Proof.
  apply (decode_found (R := MT19937_Random) stego_hi (Some [112; 119]) g0 [104; 105]).
  vm_compute. reflexivity.
Defined.

Lemma decode_small_image_witness :
  fst (decode carrier_5x6 (Some [112; 119]) g0) = Ok None.
Proof.
  apply (decode_small_image (R := MT19937_Random) carrier_5x6 (Some [112; 119]) g0).
  vm_compute. lia.
Defined.

Lemma decode_lsb_clear_witness :
  fst (decode blank_12x12 (Some [114]) g0) = Ok None.
Proof.
  apply (decode_lsb_clear (R := MT19937_Random) blank_12x12 (Some [114]) g0).
  unfold lsb_clear, blank_12x12. repeat constructor.
Defined.

Lemma decode_base64_fallback_witness :
  fst (decode raw_255 None g0) = Ok (Some (Base64.b64encode [255])).
Proof.
  apply (decode_base64_fallback (R := MT19937_Random) raw_255 None g0 (raster 6 6)
           [255] (marker ++ [1; 0; 0; 0] ++ [255])).
  - vm_compute. repeat constructor.
  - repeat constructor; unfold is_byte; lia.
  - discriminate.
  - reflexivity.
  - vm_compute. lia.
  - reflexivity.
  - vm_compute. reflexivity.
  - reflexivity.
Defined.

Lemma encode_random_state_witness :
  snd (encode carrier [104; 105] (Some [112; 119]) g0)
  = state_after (width carrier) (height carrier) (Some [112; 119]) g0.
Proof.
  apply (encode_random_state (R := MT19937_Random) carrier [104; 105] (Some [112; 119]) g0
           stego_hi).
  vm_compute. reflexivity.
Defined.

Lemma encode_raise_state_witness :
  snd (encode carrier_8x4 [104; 105] (Some [112; 119]) g0) = g0.
Proof.
  apply (encode_raise_state (R := MT19937_Random) carrier_8x4 [104; 105] (Some [112; 119]) g0
           (ValueError 104 96)).
  - reflexivity.
  - discriminate.
Defined.

Lemma process_action_encode_witness :
  [97; 46; 112; 110; 103] = image_path form_encode /\
  any_file [97; 46; 112; 110; 103] = true /\
  [104; 105] <> [] /\
  (exists l r, message_text form_encode = l ++ [104; 105] ++ r /\
     forallb isspace l = true /\ forallb isspace r = true) /\
  (forall c, head [104; 105] = Some c -> isspace c = false) /\
  (forall c, last [104; 105] = Some c -> isspace c = false) /\
  (Some [112; 119] = None \/ truthy (Some [112; 119]) = true) /\
  Some [112; 119] = (if use_password form_encode then Some (password form_encode) else None).
Proof.
  apply (process_action_encode any_file form_encode [97; 46; 112; 110; 103] [104; 105]
           (Some [112; 119])).
  reflexivity.
Defined.

Lemma process_action_decode_witness :
  image_path form_decode = image_path form_decode /\
  any_file (image_path form_decode) = true /\
  operation form_decode <> op_encode /\
  Some [112; 119] = (if use_password form_decode then Some (password form_decode) else None) /\
  truthy (Some [112; 119]) = use_password form_decode.
Proof.
  apply (process_action_decode any_file form_decode (image_path form_decode)
           (Some [112; 119])).
  reflexivity.
Defined.

